(** * TextFileXmlStream: the XML reader and writer of text resource files

    A shallow embedding of [src/engconverter/textfilexmlstream.cpp] and the
    properties of its tag matcher, group decoder, reader and writer.

    The Qt classes the code is written against are modelled at the level
    of the interface the code uses:
    - [QString]: byte strings, with [toInt], [number] and [arg];
    - [QXmlStreamReader]: a cursor over the sequence of tokens of the
      document, [QXmlStreamWriter]: an emitter of such tokens;
    - [QIODevice]: a channel that opens or not and holds a document;
    - [Logger]: the list of the messages given to [error], oldest first. *)

From Stdlib Require Import ZArith List String Ascii Bool Lia Decimal DecimalString DecimalZ.
Import ListNotations.

Local Open Scope string_scope.
Local Open Scope Z_scope.
Local Open Scope list_scope.

Infix "+++" := String.append (right associativity, at level 60).

(** ** QString *)

Module QString.

Definition INT_MIN : Z := - 2147483648.
Definition INT_MAX : Z := 2147483647.

Definition in_int_range (z : Z) : bool := (INT_MIN <=? z) && (z <=? INT_MAX).

(** The white space [toInt] ignores around a number (the ASCII part of
    [QChar::isSpace]). *)
Definition isSpace (c : ascii) : bool :=
  let n := nat_of_ascii c in
  ((9 <=? n) && (n <=? 13))%nat || (n =? 32)%nat.

Fixpoint skipSpaces (s : string) : string :=
  match s with
  | String c r => if isSpace c then skipSpaces r else s
  | EmptyString => EmptyString
  end.

(** Drops the white space at the end of [s]: a space is kept only when
    something else follows it. *)
Fixpoint chopSpaces (s : string) : string :=
  match s with
  | String c r =>
      match chopSpaces r with
      | EmptyString => if isSpace c then EmptyString else String c EmptyString
      | r' => String c r'
      end
  | EmptyString => EmptyString
  end.

Definition trimmed (s : string) : string := chopSpaces (skipSpaces s).

(** [QString::toInt(&ok)] in base 10: optional surrounding white space,
    an optional sign, at least one decimal digit and nothing else, and a
    value that fits an [int]; [None] is [ok == false]. *)
Definition toInt (s : string) : option Z :=
  let t := trimmed s in
  let '(negative, digits) :=
    match t with
    | String "-" r => (true, r)
    | String "+" r => (false, r)
    | _ => (false, t)
    end in
  match digits with
  | EmptyString => None
  | _ =>
      match NilEmpty.uint_of_string digits with
      | None => None
      | Some d =>
          let v := if negative then - Z.of_uint d else Z.of_uint d in
          if in_int_range v then Some v else None
      end
  end.

(** [QString::number(int)]: the decimal digits, with a minus sign for a
    negative number. *)
Definition number (n : Z) : string := NilZero.string_of_int (Z.to_int n).

(** *** Place markers of [QString::arg]

    A place marker is [%], an optional [L], and one or two decimal
    digits.  Anything else, [%s] included, is ordinary text. *)

Definition digitValue (c : ascii) : option nat :=
  let n := nat_of_ascii c in
  if ((48 <=? n) && (n <=? 57))%nat then Some (n - 48)%nat else None.

Inductive Piece : Type :=
| Lit (c : ascii)
| Escape (n : nat) (src : string).

(** The text cut into its ordinary characters and its place markers,
    each marker with its number and the text it was written as.  After a
    [%] that starts no marker the scan goes on with the next character. *)
Fixpoint findArgEscapes (s : string) : list Piece :=
  match s with
  | EmptyString => []
  | String "%" rest =>
      match rest with
      | String "L" (String d1 r1 as body) =>
          match digitValue d1 with
          | Some n1 =>
              match r1 with
              | String d2 r2 =>
                  match digitValue d2 with
                  | Some n2 =>
                      Escape (10 * n1 + n2)
                        (String "%" (String "L" (String d1 (String d2 EmptyString))))
                      :: findArgEscapes r2
                  | None =>
                      Escape n1 (String "%" (String "L" (String d1 EmptyString)))
                      :: findArgEscapes r1
                  end
              | EmptyString =>
                  [Escape n1 (String "%" (String "L" (String d1 EmptyString)))]
              end
          | None => Lit "%" :: Lit "L" :: findArgEscapes body
          end
      | String d1 r1 =>
          match digitValue d1 with
          | Some n1 =>
              match r1 with
              | String d2 r2 =>
                  match digitValue d2 with
                  | Some n2 =>
                      Escape (10 * n1 + n2)
                        (String "%" (String d1 (String d2 EmptyString)))
                      :: findArgEscapes r2
                  | None =>
                      Escape n1 (String "%" (String d1 EmptyString))
                      :: findArgEscapes r1
                  end
              | EmptyString => [Escape n1 (String "%" (String d1 EmptyString))]
              end
          | None => Lit "%" :: findArgEscapes rest
          end
      | EmptyString => [Lit "%"]
      end
  | String c rest => Lit c :: findArgEscapes rest
  end.

(** The lowest marker number of a text, when it has a marker. *)
Fixpoint minEscape (ps : list Piece) : option nat :=
  match ps with
  | [] => None
  | Lit _ :: r => minEscape r
  | Escape n _ :: r =>
      match minEscape r with
      | Some m => Some (Nat.min n m)
      | None => Some n
      end
  end.

(** The lowest marker number above [lo]. *)
Fixpoint minEscapeAbove (lo : nat) (ps : list Piece) : option nat :=
  match ps with
  | [] => None
  | Lit _ :: r => minEscapeAbove lo r
  | Escape n _ :: r =>
      match minEscapeAbove lo r with
      | Some m => Some (if (lo <? n)%nat then Nat.min n m else m)
      | None => if (lo <? n)%nat then Some n else None
      end
  end.

(** The text again, with the markers that [subst] knows replaced. *)
Fixpoint replaceArgEscapes (subst : nat -> option string) (ps : list Piece) : string :=
  match ps with
  | [] => EmptyString
  | Lit c :: r => String c (replaceArgEscapes subst r)
  | Escape n src :: r =>
      match subst n with
      | Some a => a +++ replaceArgEscapes subst r
      | None => src +++ replaceArgEscapes subst r
      end
  end.

(** [fmt.arg(a)]: every occurrence of the lowest numbered place marker is
    replaced by [a]; a text without place marker is returned as it is. *)
Definition arg (fmt a : string) : string :=
  let ps := findArgEscapes fmt in
  match minEscape ps with
  | None => fmt
  | Some m => replaceArgEscapes (fun n => if (n =? m)%nat then Some a else None) ps
  end.

(** [fmt.arg(a1, a2)]: the lowest numbered place marker is replaced by
    [a1] and the next one by [a2], in one pass. *)
Definition arg2 (fmt a1 a2 : string) : string :=
  let ps := findArgEscapes fmt in
  match minEscape ps with
  | None => fmt
  | Some m1 =>
      let second := minEscapeAbove m1 ps in
      replaceArgEscapes
        (fun n =>
           if (n =? m1)%nat then Some a1
           else match second with
                | Some m2 => if (n =? m2)%nat then Some a2 else None
                | None => None
                end)
        ps
  end.

(** [s.contains(sub)]. *)
Fixpoint startsWith (s sub : string) : bool :=
  match sub, s with
  | EmptyString, _ => true
  | String c sub', String d s' => Ascii.eqb c d && startsWith s' sub'
  | String _ _, EmptyString => false
  end.

Fixpoint contains (s sub : string) : bool :=
  startsWith s sub ||
  match s with
  | EmptyString => false
  | String _ s' => contains s' sub
  end.

End QString.

(** ** The XML token stream *)

Definition Attributes : Type := list (string * string).

Definition hasAttribute (attrs : Attributes) (key : string) : bool :=
  existsb (fun kv => String.eqb (fst kv) key) attrs.

(** [attrs.value(key).toString()]: the value of the first attribute of
    that name, the empty string when there is none. *)
Fixpoint value (attrs : Attributes) (key : string) : string :=
  match attrs with
  | [] => EmptyString
  | (k, v) :: r => if String.eqb k key then v else value r key
  end.

Inductive Token : Type :=
| NoToken
| Invalid (message : string)
| StartDocument
| EndDocument
| StartElement (name : string) (attrs : Attributes)
| EndElement (name : string)
| Characters (text : string)
| Comment
| DTD
| EntityReference (text : string)
| ProcessingInstruction.

(** The reader: the token it stands on and the tokens it has not read
    yet. *)
Record QXmlStreamReader : Type := mkReader {
  tokenType : Token;
  pending : list Token
}.

Definition isStartElement (xml : QXmlStreamReader) : bool :=
  match tokenType xml with StartElement _ _ => true | _ => false end.

Definition isEndElement (xml : QXmlStreamReader) : bool :=
  match tokenType xml with EndElement _ => true | _ => false end.

Definition name (xml : QXmlStreamReader) : string :=
  match tokenType xml with
  | StartElement n _ | EndElement n => n
  | _ => EmptyString
  end.

Definition attributes (xml : QXmlStreamReader) : Attributes :=
  match tokenType xml with
  | StartElement _ attrs => attrs
  | _ => []
  end.

Definition errorString (xml : QXmlStreamReader) : string :=
  match tokenType xml with
  | Invalid message => message
  | _ => EmptyString
  end.

(** The reader is at its end on the end of the document and on an error. *)
Definition ends (t : Token) : bool :=
  match t with
  | EndDocument | Invalid _ => true
  | _ => false
  end.

Definition atEnd (xml : QXmlStreamReader) : bool := ends (tokenType xml).

Definition prematureEnd : string := "Premature end of document.".
Definition expectedCharacterData : string := "Expected character data.".

(** [readNext]: the next token becomes the current one.  After an error
    the reader stays on it, and a document that stops short is an error. *)
Definition readNext (xml : QXmlStreamReader) : QXmlStreamReader :=
  match tokenType xml with
  | Invalid _ => xml
  | _ =>
      match pending xml with
      | [] => mkReader (Invalid prematureEnd) []
      | t :: r => mkReader t r
      end
  end.

(** [readElementText] from a start element: the character data up to the
    end element, comments and processing instructions skipped; any other
    token is an error, on which the text read so far is returned. *)
Fixpoint readElementText_loop (result : string) (toks : list Token)
  : string * QXmlStreamReader :=
  match toks with
  | [] => (result, mkReader (Invalid prematureEnd) [])
  | t :: r =>
      match t with
      | Characters s | EntityReference s => readElementText_loop (result +++ s) r
      | EndElement _ => (result, mkReader t r)
      | ProcessingInstruction | Comment => readElementText_loop result r
      | Invalid _ => (result, mkReader t r)
      | _ => (result, mkReader (Invalid expectedCharacterData) r)
      end
  end.

Definition readElementText (xml : QXmlStreamReader) : string * QXmlStreamReader :=
  if isStartElement xml then readElementText_loop EmptyString (pending xml)
  else (EmptyString, xml).

(** The writer: the tokens written, the start element still open for
    attributes, the names of the open elements (innermost first) and the
    two flags of the formatting. *)
Record QXmlStreamWriter : Type := mkWriter {
  written : list Token;
  inStartElement : option (string * Attributes);
  tagStack : list string;
  lastWasStartElement : bool;
  autoFormatting : bool
}.

Fixpoint spaces (n : nat) : string :=
  match n with
  | O => EmptyString
  | S n' => String " " (spaces n')
  end.

Definition newline : string := String "010" EmptyString.

(** A new line and four spaces for each level, as character data. *)
Definition indent (level : nat) : Token := Characters (newline +++ spaces (4 * level)).

Definition newWriter : QXmlStreamWriter := mkWriter [] None [] false false.

Definition setAutoFormatting (b : bool) (w : QXmlStreamWriter) : QXmlStreamWriter :=
  mkWriter (written w) (inStartElement w) (tagStack w) (lastWasStartElement w) b.

Definition finishStartElement (w : QXmlStreamWriter) : QXmlStreamWriter :=
  match inStartElement w with
  | Some (n, attrs) =>
      mkWriter (written w ++ [StartElement n attrs]) None (tagStack w)
        (lastWasStartElement w) (autoFormatting w)
  | None => w
  end.

Definition emit (t : Token) (w : QXmlStreamWriter) : QXmlStreamWriter :=
  mkWriter (written w ++ [t]) (inStartElement w) (tagStack w)
    (lastWasStartElement w) (autoFormatting w).

Definition writeStartDocument (w : QXmlStreamWriter) : QXmlStreamWriter :=
  emit StartDocument w.

Definition writeStartElement (n : string) (w : QXmlStreamWriter) : QXmlStreamWriter :=
  let w1 := finishStartElement w in
  let w2 := if autoFormatting w1 then emit (indent (List.length (tagStack w1))) w1 else w1 in
  mkWriter (written w2) (Some (n, [])) (n :: tagStack w2) true (autoFormatting w2).

Definition writeAttribute (key val : string) (w : QXmlStreamWriter) : QXmlStreamWriter :=
  match inStartElement w with
  | Some (n, attrs) =>
      mkWriter (written w) (Some (n, attrs ++ [(key, val)])) (tagStack w)
        (lastWasStartElement w) (autoFormatting w)
  | None => w
  end.

(** The text goes out as one [Characters] token; an empty text writes
    nothing. *)
Definition writeCharacters (text : string) (w : QXmlStreamWriter) : QXmlStreamWriter :=
  let w1 := finishStartElement w in
  match text with
  | EmptyString => w1
  | _ => emit (Characters text) w1
  end.

Definition writeEndElement (w : QXmlStreamWriter) : QXmlStreamWriter :=
  match tagStack w with
  | [] => w
  | n :: stack =>
      let w1 := finishStartElement w in
      let w2 :=
        if autoFormatting w1 && negb (lastWasStartElement w1)
        then emit (indent (List.length stack)) w1 else w1 in
      mkWriter (written w2 ++ [EndElement n]) None stack false (autoFormatting w2)
  end.

Fixpoint closeOpenElements (depth : nat) (w : QXmlStreamWriter) : QXmlStreamWriter :=
  match depth with
  | O => w
  | S d => closeOpenElements d (writeEndElement w)
  end.

Definition writeEndDocument (w : QXmlStreamWriter) : QXmlStreamWriter :=
  let w1 := closeOpenElements (List.length (tagStack w)) w in
  let w2 := if autoFormatting w1 then emit (Characters newline) w1 else w1 in
  emit EndDocument w2.

(** The channel: whether it opens, its diagnostic when it does not, and
    the document it holds, as the tokens the tokenizer makes of it. *)
Record QIODevice : Type := mkDevice {
  canOpen : bool;
  deviceErrorString : string;
  document : list Token
}.

(** ** Logger *)

Definition Logger : Type := list string.

Definition error (logger : Logger) (message : string) : Logger := logger ++ [message].

(** ** TextGroup and TextFile *)

(** Modelled from the spec: the class [TextGroup] of textgroup.h, an
    integer id and an ordered sequence of strings, [add] appending one. *)
Record TextGroup : Type := mkGroup {
  id : Z;
  strings : list string
}.

Definition TextGroup_new (i : Z) : TextGroup := mkGroup i [].
Definition size (group : TextGroup) : Z := Z.of_nat (List.length (strings group)).
Definition add (group : TextGroup) (s : string) : TextGroup :=
  mkGroup (id group) (strings group ++ [s]).

(** Modelled from the spec: the class [TextFile] of textfile.h, a name
    that defaults to the empty string, the flag that defaults to true and
    the ordered sequence of groups. *)
Record TextFile : Type := mkFile {
  m_name : string;
  m_indexWithCounts : bool;
  m_groups : list TextGroup
}.

Definition TextFile_new : TextFile := mkFile EmptyString true [].

Definition set_name (file : TextFile) (n : string) : TextFile :=
  mkFile n (m_indexWithCounts file) (m_groups file).
Definition set_indexWithCounts (file : TextFile) (b : bool) : TextFile :=
  mkFile (m_name file) b (m_groups file).
Definition append_group (file : TextFile) (group : TextGroup) : TextFile :=
  mkFile (m_name file) (m_indexWithCounts file) (m_groups file ++ [group]).

(** ** TextFileXmlStream *)

Definition Found : Type := (bool * QXmlStreamReader * Logger)%type.

(** The loop of [readOpenTag], by recursion on the tokens not read yet:
    [current] and [toks] are the reader before [atEnd] is asked.  On the
    empty list [readNext] gives the error token of a document that stops
    short. *)
Fixpoint readOpenTag_loop (tag : string) (current : Token) (toks : list Token)
  (logger : Logger) : Found :=
  if ends current then
    (false, mkReader current toks, error logger "Invalid XML: unexpected end of file")
  else
    match toks with
    | [] =>
        (false, mkReader (Invalid prematureEnd) [],
         error logger (QString.arg "Invalid XML: %s" prematureEnd))
    | t :: r =>
        match t with
        | StartDocument | Comment | DTD | Characters _ | EntityReference _
        | ProcessingInstruction | NoToken =>
            readOpenTag_loop tag t r logger
        | Invalid message =>
            (false, mkReader t r, error logger (QString.arg "Invalid XML: %s" message))
        | EndDocument | EndElement _ =>
            (false, mkReader t r, logger)
        | StartElement n _ =>
            if String.eqb n tag then (true, mkReader t r, logger)
            else
              (false, mkReader t r,
               error logger
                 (QString.arg2 "Invalid XML: expected tag <%1>, got <%2>" tag n))
        end
    end.

Definition readOpenTag (xml : QXmlStreamReader) (tag : string) (logger : Logger) : Found :=
  if isStartElement xml && String.eqb (name xml) tag then (true, xml, logger)
  else readOpenTag_loop tag (tokenType xml) (pending xml) logger.

(** The loop of [readCloseTag], by recursion on the tokens not read yet. *)
Fixpoint readCloseTag_loop (tag : string) (current : Token) (toks : list Token)
  (logger : Logger) : Found :=
  if ends current then
    (false, mkReader current toks,
     error logger (QString.arg "Invalid XML: end element </%1> not found" tag))
  else
    match toks with
    | [] =>
        (false, mkReader (Invalid prematureEnd) [],
         error logger (QString.arg "Invalid XML: end element </%1> not found" tag))
    | t :: r =>
        match t with
        | EndElement n =>
            if String.eqb n tag then (true, mkReader t r, logger)
            else readCloseTag_loop tag t r logger
        | _ => readCloseTag_loop tag t r logger
        end
    end.

Definition readCloseTag (xml : QXmlStreamReader) (tag : string) (logger : Logger) : Found :=
  if isEndElement xml && String.eqb (name xml) tag then (true, xml, logger)
  else readCloseTag_loop tag (tokenType xml) (pending xml) logger.

(** The number of rounds the loops over elements are given: every round
    that is followed by another reads a token, so this is never used up
    ([readGroup_total], [readFile_total]). *)
Definition budget (xml : QXmlStreamReader) : nat := S (S (List.length (pending xml))).

(** The loop of [readGroup]; [gid] is the local [id].  The result of
    [readCloseTag] is dropped, as in the source, and the counter [index],
    which nothing reads, is left out.  [None]: out of rounds. *)
Fixpoint readGroup_loop (fuel : nat) (gid : Z) (xml : QXmlStreamReader)
  (group : TextGroup) (logger : Logger)
  : option (bool * QXmlStreamReader * TextGroup * Logger) :=
  match fuel with
  | O => None
  | S fuel' =>
      let '(found, xml1, logger1) := readOpenTag xml "string" logger in
      if found then
        let textIdString := value (attributes xml1) "id" in
        match QString.toInt textIdString with
        | None =>
            Some (false, xml1, group,
                  error logger1
                    (QString.arg "String ID is not an integer: %1" textIdString))
        | Some textId =>
            if negb (textId =? size group) then
              Some (false, xml1, group,
                    error logger1
                      (QString.arg "Strings in group %1 are not ordered properly"
                         (QString.number gid)))
            else
              let '(text, xml2) := readElementText xml1 in
              let group2 := add group text in
              let '(_, xml3, logger3) := readCloseTag xml2 "string" logger1 in
              readGroup_loop fuel' gid xml3 group2 logger3
        end
      else Some (true, xml1, group, logger1)
  end.

Definition Read : Type := (bool * TextFile * QXmlStreamReader * Logger)%type.

Definition readGroup (file : TextFile) (xml : QXmlStreamReader) (logger : Logger)
  : option Read :=
  if negb (hasAttribute (attributes xml) "id") then
    Some (false, file, xml, error logger "Group does not have an ID attribute")
  else
    let idString := value (attributes xml) "id" in
    match QString.toInt idString with
    | None =>
        Some (false, file, xml,
              error logger (QString.arg "Group ID is not an integer: %1" idString))
    | Some gid =>
        match readGroup_loop (budget xml) gid xml (TextGroup_new gid) logger with
        | None => None
        | Some (true, xml1, group, logger1) =>
            Some (true, append_group file group, xml1, logger1)
        | Some (false, xml1, _, logger1) => Some (false, file, xml1, logger1)
        end
    end.

(** The loop over the groups of [readFile]: [true] when the loop is left
    by its condition, [false] when [readFile] returns false from inside. *)
Fixpoint readFile_loop (fuel : nat) (file : TextFile) (xml : QXmlStreamReader)
  (logger : Logger) : option Read :=
  match fuel with
  | O => None
  | S fuel' =>
      let '(found, xml1, logger1) := readOpenTag xml "group" logger in
      if found then
        match readGroup file xml1 logger1 with
        | None => None
        | Some (false, file2, xml2, logger2) => Some (false, file2, xml2, logger2)
        | Some (true, file2, xml2, logger2) =>
            let '(closed, xml3, logger3) := readCloseTag xml2 "group" logger2 in
            if closed then readFile_loop fuel' file2 xml3 logger3
            else Some (false, file2, xml3, logger3)
        end
      else Some (true, file, xml1, logger1)
  end.

Definition readFile (file : TextFile) (xml : QXmlStreamReader) (logger : Logger)
  : option Read :=
  let '(found, xml1, logger1) := readOpenTag xml "strings" logger in
  if negb found then
    Some (false, file, xml1, error logger1 "Unable to find root <strings> element")
  else
    let file1 :=
      if hasAttribute (attributes xml1) "name"
      then set_name file (value (attributes xml1) "name") else file in
    let file2 :=
      if hasAttribute (attributes xml1) "indexWithCounts"
      then set_indexWithCounts file1
             (negb (String.eqb (value (attributes xml1) "indexWithCounts") "false"))
      else file1 in
    match readFile_loop (budget xml1) file2 xml1 logger1 with
    | None => None
    | Some (false, file3, xml3, logger3) => Some (false, file3, xml3, logger3)
    | Some (true, file3, xml3, logger3) =>
        let '(closed, xml4, logger4) := readCloseTag xml3 "strings" logger3 in
        Some (closed, file3, xml4, logger4)
    end.

(** [read]: the result, the document and the logger afterwards. *)
Definition read (file : TextFile) (device : QIODevice) (logger : Logger)
  : option (bool * TextFile * Logger) :=
  if negb (canOpen device) then
    Some (false, file,
          error logger
            (QString.arg "Unable to open XML file for reading: %1"
               (deviceErrorString device)))
  else
    let xml := mkReader NoToken (document device) in
    match readFile file xml logger with
    | None => None
    | Some (result, file', _, logger') => Some (result, file', logger')
    end.

(** The loop of [writeGroup] over the strings, [index] counting them. *)
Fixpoint writeGroup_loop (strs : list string) (index : Z) (xml : QXmlStreamWriter)
  : QXmlStreamWriter :=
  match strs with
  | [] => xml
  | s :: rest =>
      let xml := writeStartElement "string" xml in
      let xml := writeAttribute "id" (QString.number index) xml in
      let xml := writeCharacters s xml in
      let xml := writeEndElement xml in
      writeGroup_loop rest (index + 1) xml
  end.

Definition writeGroup (group : TextGroup) (xml : QXmlStreamWriter) : QXmlStreamWriter :=
  let xml := writeStartElement "group" xml in
  let xml := writeAttribute "id" (QString.number (id group)) xml in
  let xml := writeGroup_loop (strings group) 0 xml in
  writeEndElement xml.

Fixpoint write_loop (groups : list TextGroup) (xml : QXmlStreamWriter) : QXmlStreamWriter :=
  match groups with
  | [] => xml
  | g :: rest => write_loop rest (writeGroup g xml)
  end.

(** [write]: the result, the device with the document written and the
    logger afterwards. *)
Definition write (file : TextFile) (device : QIODevice) (logger : Logger)
  : bool * QIODevice * Logger :=
  if negb (canOpen device) then
    (false, device,
     error logger
       (QString.arg "Unable to open XML file for writing: %1" (deviceErrorString device)))
  else
    let xml := setAutoFormatting true newWriter in
    let xml := writeStartDocument xml in
    let xml := writeStartElement "strings" xml in
    let xml := writeAttribute "name" (m_name file) xml in
    let xml := writeAttribute "indexWithCounts"
                 (if m_indexWithCounts file then "true" else "false") xml in
    let xml := write_loop (m_groups file) xml in
    let xml := writeEndElement xml in
    let xml := writeEndDocument xml in
    (true, mkDevice (canOpen device) (deviceErrorString device) (written xml), logger).

(** ** Sample documents *)

Definition str (i text : string) : list Token :=
  [StartElement "string" [("id", i)]; Characters text; EndElement "string"].

Definition doc (body : list Token) : QIODevice :=
  mkDevice true EmptyString (StartDocument :: body ++ [EndDocument]).

Definition sampleFile : TextFile :=
  mkFile "eng" false [mkGroup 7 ["a"; ""; "b c"]; mkGroup (-3) []; mkGroup 7 ["x"]].

(** ** Vocabulary of the statements *)

(** A text without white space. *)
Fixpoint noSpace (s : string) : bool :=
  match s with
  | EmptyString => true
  | String c r => negb (QString.isSpace c) && noSpace r
  end.

(** What is left to read: nothing once the reader is at its end. *)
Definition measure (xml : QXmlStreamReader) : nat :=
  if atEnd xml then O else S (List.length (pending xml)).

(** The tokens [readOpenTag] reads over. *)
Definition skipped (t : Token) : bool :=
  match t with
  | StartDocument | Comment | DTD | Characters _ | EntityReference _
  | ProcessingInstruction | NoToken => true
  | _ => false
  end.

(** The reader stands on the start element [readOpenTag] looks for. *)
Definition onStart (xml : QXmlStreamReader) (tag : string) : bool :=
  isStartElement xml && String.eqb (name xml) tag.

(** The reader stands on the end element [readCloseTag] looks for. *)
Definition onEnd (xml : QXmlStreamReader) (tag : string) : bool :=
  isEndElement xml && String.eqb (name xml) tag.

(** Why [readOpenTag] gives a message to the logger, and which one. *)
Inductive OpenTagError (tag : string) (xml : QXmlStreamReader) : string -> Prop :=
| StreamEnded :
    atEnd xml = true ->
    OpenTagError tag xml "Invalid XML: unexpected end of file"
| Mismatch pre n attrs post :
    atEnd xml = false ->
    pending xml = pre ++ StartElement n attrs :: post ->
    forallb skipped pre = true ->
    n <> tag ->
    OpenTagError tag xml
      (QString.arg2 "Invalid XML: expected tag <%1>, got <%2>" tag n)
| InvalidToken pre message post :
    atEnd xml = false ->
    pending xml = pre ++ Invalid message :: post ->
    forallb skipped pre = true ->
    OpenTagError tag xml (QString.arg "Invalid XML: %s" message)
| StopsShort :
    atEnd xml = false ->
    forallb skipped (pending xml) = true ->
    OpenTagError tag xml (QString.arg "Invalid XML: %s" prematureEnd).

(** The tokens [readCloseTag] reads over on its way to [</tag>]: all but
    the end element itself and the two that end the stream. *)
Definition passed (tag : string) (t : Token) : bool :=
  match t with
  | EndElement n => negb (String.eqb n tag)
  | EndDocument | Invalid _ => false
  | _ => true
  end.

(** *** Documents as token sequences

    A string element is its start element, after tokens that
    [readOpenTag] skips, its content and its end element; a group element
    is its start element, its string elements, and its end element after
    skipped tokens. *)

Record StringElem : Type := mkStringElem {
  s_lead : list Token;
  s_attrs : Attributes;
  s_body : list Token
}.

Definition stringTokens (e : StringElem) : list Token :=
  s_lead e ++ StartElement "string" (s_attrs e) :: s_body e ++ [EndElement "string"].

(** The tokens [readElementText] accepts inside an element. *)
Definition textual (t : Token) : bool :=
  match t with
  | Characters _ | EntityReference _ | Comment | ProcessingInstruction => true
  | _ => false
  end.

(** The character data of a content. *)
Fixpoint elementText (body : list Token) : string :=
  match body with
  | [] => EmptyString
  | Characters s :: r | EntityReference s :: r => s +++ elementText r
  | _ :: r => elementText r
  end.

Definition goodString (e : StringElem) : bool :=
  forallb skipped (s_lead e) && forallb textual (s_body e).

(** The [id] attributes of the elements are the numbers from [k] on. *)
Fixpoint stringIds (k : Z) (elems : list StringElem) : bool :=
  match elems with
  | [] => true
  | e :: r =>
      match QString.toInt (value (s_attrs e) "id") with
      | Some j => (j =? k) && stringIds (k + 1) r
      | None => false
      end
  end.

Record GroupElem : Type := mkGroupElem {
  g_lead : list Token;
  g_attrs : Attributes;
  g_strings : list StringElem;
  g_trail : list Token
}.

(** A group element up to its last string element, and as a whole. *)
Definition groupOpen (g : GroupElem) : list Token :=
  g_lead g ++ StartElement "group" (g_attrs g) :: flat_map stringTokens (g_strings g).

Definition groupTokens (g : GroupElem) : list Token :=
  groupOpen g ++ g_trail g ++ [EndElement "group"].

Definition groupId (g : GroupElem) : Z :=
  match QString.toInt (value (g_attrs g) "id") with
  | Some gid => gid
  | None => 0
  end.

(** The start of a group element that [readGroup] accepts. *)
Definition goodGroupStart (g : GroupElem) : bool :=
  forallb skipped (g_lead g) && hasAttribute (g_attrs g) "id" &&
  match QString.toInt (value (g_attrs g) "id") with
  | Some _ => true
  | None => false
  end.

Definition goodGroup (g : GroupElem) : bool :=
  goodGroupStart g && forallb goodString (g_strings g) &&
  stringIds 0 (g_strings g) && forallb skipped (g_trail g).

(** The group that a group element stands for. *)
Definition groupOf (g : GroupElem) : TextGroup :=
  mkGroup (groupId g) (map (fun e => elementText (s_body e)) (g_strings g)).

(** The root start element with the tokens before it, and the document
    after it. *)
Definition rootOpen (lead : list Token) (attrs : Attributes) : list Token :=
  lead ++ [StartElement "strings" attrs].

(** The document after the root start element is found: name and flag
    from its attributes when they are there. *)
Definition withRoot (file : TextFile) (attrs : Attributes) : TextFile :=
  mkFile
    (if hasAttribute attrs "name" then value attrs "name" else m_name file)
    (if hasAttribute attrs "indexWithCounts"
     then negb (String.eqb (value attrs "indexWithCounts") "false")
     else m_indexWithCounts file)
    (m_groups file).

Definition withGroups (file : TextFile) (groups : list TextGroup) : TextFile :=
  mkFile (m_name file) (m_indexWithCounts file) (m_groups file ++ groups).

(** The token the reader stands on after a sequence of elements: the end
    element of the last one. *)
Definition restsOn {A} (cur : Token) (tag : string) (elems : list A) : Token :=
  match elems with
  | [] => cur
  | _ => EndElement tag
  end.

(** The end of [readFile], once its loop has come to a result. *)
Definition afterGroups (r : Read) : Read :=
  match r with
  | (false, file, xml, logger) => (false, file, xml, logger)
  | (true, file, xml, logger) =>
      let '(closed, xml', logger') := readCloseTag xml "strings" logger in
      (closed, file, xml', logger')
  end.

(** The attributes of the root start element that [readFile] finds in the
    document of a device, when it finds one. *)
Definition rootAttributes (device : QIODevice) : option Attributes :=
  let '(found, xml, _) := readOpenTag (mkReader NoToken (document device)) "strings" [] in
  if found then Some (attributes xml) else None.

(** *** What the writer writes

    The elements of a document as [write] formats them: every start
    element on a line of its own, four more spaces for each level, and the
    end element of an element with children on a line of its own. *)

Definition textTokens (text : string) : list Token :=
  match text with
  | EmptyString => []
  | _ => [Characters text]
  end.

Fixpoint writtenStrings (index : Z) (strs : list string) : list StringElem :=
  match strs with
  | [] => []
  | s :: r =>
      mkStringElem [indent 2] [("id", QString.number index)] (textTokens s)
      :: writtenStrings (index + 1) r
  end.

Definition closing {A} (level : nat) (children : list A) : list Token :=
  match children with
  | [] => []
  | _ => [indent level]
  end.

Definition writtenGroup (g : TextGroup) : GroupElem :=
  mkGroupElem [indent 1] [("id", QString.number (id g))]
    (writtenStrings 0 (strings g)) (closing 1 (strings g)).

Definition writtenRoot (file : TextFile) : Attributes :=
  [("name", m_name file);
   ("indexWithCounts", if m_indexWithCounts file then "true" else "false")].

Definition writtenDocument (file : TextFile) : list Token :=
  rootOpen [StartDocument; indent 0] (writtenRoot file)
  ++ flat_map groupTokens (map writtenGroup (m_groups file))
  ++ closing 0 (m_groups file)
  ++ [EndElement "strings"; Characters newline; EndDocument].

(** The start element that waits for its attributes, as a token. *)
Definition flush (open : option (string * Attributes)) : list Token :=
  match open with
  | Some (n, attrs) => [StartElement n attrs]
  | None => []
  end.

(** A document as the program can hold it: the ids fit an [int], and so
    do the numbers of the strings of a group. *)
Definition wellFormedGroup (g : TextGroup) : bool :=
  QString.in_int_range (id g) && (Z.of_nat (List.length (strings g)) <=? QString.INT_MAX).

Definition wellFormed (file : TextFile) : bool :=
  forallb wellFormedGroup (m_groups file).

(** *** How far the reader has come

    [xml'] comes after [xml]: a reader at its end stays at its end, and
    [xml'] is [xml], or is at its end, or stands on one of the tokens that
    [xml] had not read, with the tokens after it still to read. *)
Definition advances (xml xml' : QXmlStreamReader) : Prop :=
  (atEnd xml = true -> atEnd xml' = true) /\
  (xml' = xml \/ atEnd xml' = true \/
   exists consumed, pending xml = consumed ++ tokenType xml' :: pending xml').

(** The reader with more tokens after those it has not read. *)
Definition extend (xml : QXmlStreamReader) (more : list Token) : QXmlStreamReader :=
  mkReader (tokenType xml) (pending xml ++ more).

(** The elements of a token sequence are nested: every end element closes
    the innermost open element, and none is left open.  [open] is the
    names of the open elements, innermost first. *)
Fixpoint wellNested (open : list string) (toks : list Token) : bool :=
  match toks with
  | [] => match open with [] => true | _ => false end
  | StartElement n _ :: r => wellNested (n :: open) r
  | EndElement n :: r =>
      match open with
      | m :: outer => String.eqb n m && wellNested outer r
      | [] => false
      end
  | _ :: r => wellNested open r
  end.

(** A token that is neither a start nor an end element. *)
Definition noElement (t : Token) : bool :=
  match t with
  | StartElement _ _ | EndElement _ => false
  | _ => true
  end.

(** *** The rounds of the loop of [readFile]

    [rounds xml logger groups]: from the reader [xml] and the logger
    [logger], the loop over the groups runs to the point where it is left,
    and [groups] are the groups of the rounds in which [readGroup] returned
    true, in order, each one the group that [readGroup] appends there to
    whatever document it is given.  The loop is left when no further group
    element is found, when [readGroup] returns false, which leaves every
    document as it is, or when the end element of a group is not found. *)
Inductive rounds : QXmlStreamReader -> Logger -> list TextGroup -> Prop :=
| rounds_end xml logger xml1 logger1 :
    readOpenTag xml "group" logger = (false, xml1, logger1) ->
    rounds xml logger []
| rounds_group_fails xml logger xml1 logger1 xml2 logger2 :
    readOpenTag xml "group" logger = (true, xml1, logger1) ->
    (forall file, readGroup file xml1 logger1 = Some (false, file, xml2, logger2)) ->
    rounds xml logger []
| rounds_close_fails xml logger xml1 logger1 group xml2 logger2 xml3 logger3 :
    readOpenTag xml "group" logger = (true, xml1, logger1) ->
    (forall file,
        readGroup file xml1 logger1
        = Some (true, append_group file group, xml2, logger2)) ->
    readCloseTag xml2 "group" logger2 = (false, xml3, logger3) ->
    rounds xml logger [group]
| rounds_next xml logger xml1 logger1 group xml2 logger2 xml3 logger3 groups :
    readOpenTag xml "group" logger = (true, xml1, logger1) ->
    (forall file,
        readGroup file xml1 logger1
        = Some (true, append_group file group, xml2, logger2)) ->
    readCloseTag xml2 "group" logger2 = (true, xml3, logger3) ->
    rounds xml3 logger3 groups ->
    rounds xml logger (group :: groups).

(** * Properties *)

(** ** QString: examples *)

Example toInt_12 : QString.toInt " 12 " = Some 12. Proof. reflexivity. Qed.
Example toInt_m5 : QString.toInt "-5" = Some (-5). Proof. reflexivity. Qed.
Example toInt_e : QString.toInt "" = None. Proof. reflexivity. Qed.
Example toInt_big : QString.toInt "2147483648" = None. Proof. reflexivity. Qed.
Example toInt_min : QString.toInt "-2147483648" = Some (-2147483648). Proof. reflexivity. Qed.
Example toInt_x : QString.toInt "1x" = None. Proof. reflexivity. Qed.
Example toInt_sp : QString.toInt "1 2" = None. Proof. reflexivity. Qed.
Example toInt_sign : QString.toInt "-" = None. Proof. reflexivity. Qed.
Example number_0 : QString.number 0 = "0". Proof. reflexivity. Qed.
Example number_m : QString.number (-120) = "-120". Proof. reflexivity. Qed.
Example arg_s a : QString.arg "Invalid XML: %s" a = "Invalid XML: %s". Proof. reflexivity. Qed.
Example arg_1 a : QString.arg "end </%1> not found" a = "end </" +++ a +++ "> not found". Proof. reflexivity. Qed.
Example arg_2 a b : QString.arg2 "expected <%1>, got <%2>" a b = "expected <" +++ a +++ ">, got <" +++ b +++ ">". Proof. reflexivity. Qed.
Example arg_L a : QString.arg "x%L2y%3%L" a = "x" +++ a +++ "y%3%L". Proof. reflexivity. Qed.

(** ** QString: numbers written and read back *)

Lemma chopSpaces_noSpace s : noSpace s = true -> QString.chopSpaces s = s.
Proof.
  induction s as [|c r IH]; simpl; [reflexivity|].
  intros H. apply andb_prop in H. destruct H as [Hc Hr].
  rewrite (IH Hr). destruct r; [|reflexivity].
  apply negb_true_iff in Hc. now rewrite Hc.
Qed.

Lemma trimmed_noSpace s : noSpace s = true -> QString.trimmed s = s.
Proof.
  intros H. unfold QString.trimmed.
  destruct s as [|c r]; [reflexivity|].
  simpl in H. apply andb_prop in H. destruct H as [Hc Hr].
  simpl QString.skipSpaces. apply negb_true_iff in Hc. rewrite Hc.
  apply chopSpaces_noSpace. simpl. now rewrite Hc, Hr.
Qed.

Lemma noSpace_digits d : noSpace (NilEmpty.string_of_uint d) = true.
Proof. induction d; simpl; auto. Qed.

Lemma toInt_digits d :
  d <> Nil -> QString.in_int_range (Z.of_uint d) = true ->
  QString.toInt (NilEmpty.string_of_uint d) = Some (Z.of_uint d).
Proof.
  intros Hd Hr. unfold QString.toInt.
  rewrite (trimmed_noSpace _ (noSpace_digits d)).
  assert (E : NilEmpty.uint_of_string (NilEmpty.string_of_uint d) = Some d)
    by apply NilEmpty.usu.
  destruct d; try congruence;
    cbn [NilEmpty.string_of_uint] in *; cbv iota beta; rewrite E; now rewrite Hr.
Qed.

Lemma toInt_minus_digits d :
  d <> Nil -> QString.in_int_range (- Z.of_uint d) = true ->
  QString.toInt (String "-" (NilEmpty.string_of_uint d)) = Some (- Z.of_uint d).
Proof.
  intros Hd Hr. unfold QString.toInt.
  rewrite trimmed_noSpace by (simpl; apply noSpace_digits).
  assert (E : NilEmpty.uint_of_string (NilEmpty.string_of_uint d) = Some d)
    by apply NilEmpty.usu.
  destruct d; try congruence;
    cbn [NilEmpty.string_of_uint] in *; cbv iota beta; rewrite E; now rewrite Hr.
Qed.

Lemma to_uint_nonnil p : Pos.to_uint p <> Nil.
Proof.
  intros E. pose proof (DecimalPos.Unsigned.of_to p) as H.
  rewrite E in H. discriminate H.
Qed.

Lemma of_to_uint p : Z.of_uint (Pos.to_uint p) = Z.pos p.
Proof. unfold Z.of_uint. now rewrite DecimalPos.Unsigned.of_to. Qed.

(** A number that fits an [int] is read back from its decimal text. *)
Lemma toInt_number z :
  QString.in_int_range z = true -> QString.toInt (QString.number z) = Some z.
Proof.
  intros Hr. unfold QString.number. destruct z as [|p|p].
  - reflexivity.
  - cbn [Z.to_int NilZero.string_of_int]. unfold NilZero.string_of_uint.
    pose proof (to_uint_nonnil p) as Hn. pose proof (of_to_uint p) as Hv.
    rewrite <- Hv in Hr |- *.
    destruct (Pos.to_uint p) eqn:E; try congruence; rewrite <- E in *;
      apply toInt_digits; auto.
  - cbn [Z.to_int NilZero.string_of_int]. unfold NilZero.string_of_uint.
    pose proof (to_uint_nonnil p) as Hn. pose proof (of_to_uint p) as Hv.
    change (Z.neg p) with (- Z.pos p) in *.
    rewrite <- Hv in Hr |- *.
    destruct (Pos.to_uint p) eqn:E; try congruence; rewrite <- E in *;
      apply toInt_minus_digits; auto.
Qed.

(** ** The loops over tokens are the loops of the source *)

(** One round of the loop of [readOpenTag], as the source writes it:
    [atEnd], then [readNext] and the [switch] on the token read. *)
Lemma readOpenTag_loop_eq tag xml logger :
  readOpenTag_loop tag (tokenType xml) (pending xml) logger =
  if atEnd xml then
    (false, xml, error logger "Invalid XML: unexpected end of file")
  else
    let xml' := readNext xml in
    match tokenType xml' with
    | StartDocument | Comment | DTD | Characters _ | EntityReference _
    | ProcessingInstruction | NoToken =>
        readOpenTag_loop tag (tokenType xml') (pending xml') logger
    | Invalid _ =>
        (false, xml', error logger (QString.arg "Invalid XML: %s" (errorString xml')))
    | EndDocument | EndElement _ => (false, xml', logger)
    | StartElement _ _ =>
        if String.eqb (name xml') tag then (true, xml', logger)
        else (false, xml',
              error logger
                (QString.arg2 "Invalid XML: expected tag <%1>, got <%2>" tag (name xml')))
    end.
Proof.
  destruct xml as [cur toks]. unfold atEnd, readNext. simpl.
  destruct toks as [|t r]; destruct cur; simpl; try reflexivity;
    destruct t; reflexivity.
Qed.

(** One round of the loop of [readCloseTag], as the source writes it. *)
Lemma readCloseTag_loop_eq tag xml logger :
  readCloseTag_loop tag (tokenType xml) (pending xml) logger =
  if atEnd xml then
    (false, xml,
     error logger (QString.arg "Invalid XML: end element </%1> not found" tag))
  else
    let xml' := readNext xml in
    if isEndElement xml' && String.eqb (name xml') tag then (true, xml', logger)
    else readCloseTag_loop tag (tokenType xml') (pending xml') logger.
Proof.
  destruct xml as [cur toks]. unfold atEnd, readNext, isEndElement. simpl.
  destruct toks as [|t r]; destruct cur; simpl; try reflexivity;
    destruct t; simpl; try reflexivity;
    match goal with |- context [String.eqb ?a ?b] => destruct (String.eqb a b) end;
    reflexivity.
Qed.

(** The loop of [readElementText] is the [forever] loop over [readNext]
    of the tokenizer. *)
Lemma readElementText_loop_eq result cur toks :
  ends cur = false ->
  readElementText_loop result toks =
  let xml' := readNext (mkReader cur toks) in
  match tokenType xml' with
  | Characters s | EntityReference s =>
      readElementText_loop (result +++ s) (pending xml')
  | EndElement _ => (result, xml')
  | ProcessingInstruction | Comment => readElementText_loop result (pending xml')
  | Invalid _ => (result, xml')
  | _ => (result, mkReader (Invalid expectedCharacterData) (pending xml'))
  end.
Proof.
  intros H. unfold readNext. destruct cur; try discriminate H; simpl;
    destruct toks as [|t r]; simpl; try reflexivity; destruct t; reflexivity.
Qed.

(** ** Progress of the reader *)

Lemma measure_le_budget xml : (measure xml < budget xml)%nat.
Proof. unfold measure, budget. destruct (atEnd xml); lia. Qed.

Lemma measure_mk_le t r : (measure (mkReader t r) <= S (List.length r))%nat.
Proof. unfold measure, atEnd. simpl. destruct (ends t); lia. Qed.

Lemma readOpenTag_loop_progress tag toks :
  forall cur logger found xml' logger',
    readOpenTag_loop tag cur toks logger = (found, xml', logger') ->
    (measure xml' <= measure (mkReader cur toks))%nat /\
    (ends cur = false -> (measure xml' < measure (mkReader cur toks))%nat) /\
    (found = true -> isStartElement xml' = true /\ name xml' = tag).
Proof.
  induction toks as [|t r IH]; intros cur logger found xml' logger' H; simpl in H.
  - destruct (ends cur) eqn:E.
    + inversion H; subst. repeat split; try lia; try discriminate.
    + inversion H; subst. unfold measure, atEnd. simpl. rewrite E.
      repeat split; try lia; try discriminate.
  - destruct (ends cur) eqn:E.
    + inversion H; subst. repeat split; try lia; try discriminate.
    + assert (M : measure (mkReader cur (t :: r)) = S (S (List.length r)))
        by (unfold measure, atEnd; simpl; now rewrite E).
      rewrite M. pose proof (measure_mk_le t r) as Ht.
      destruct t;
        try (apply IH in H; destruct H as (H1 & _ & H3);
             repeat split; try lia; apply H3; assumption);
        try (inversion H; subst; repeat split; try lia; discriminate).
      destruct (String.eqb name0 tag) eqn:En.
      * inversion H; subst. apply String.eqb_eq in En.
        repeat split; try lia; auto.
      * inversion H; subst. repeat split; try lia; discriminate.
Qed.

Lemma readOpenTag_progress xml tag logger found xml' logger' :
  readOpenTag xml tag logger = (found, xml', logger') ->
  (measure xml' <= measure xml)%nat /\
  (found = true -> isStartElement xml' = true /\ name xml' = tag).
Proof.
  unfold readOpenTag. intros H.
  destruct (isStartElement xml && String.eqb (name xml) tag) eqn:E.
  - inversion H; subst. apply andb_prop in E. destruct E as [E1 E2].
    apply String.eqb_eq in E2. split; [lia|auto].
  - destruct xml as [cur toks]. simpl in H.
    apply readOpenTag_loop_progress in H. tauto.
Qed.

(** From a start element of another name [readOpenTag] has to read on. *)
Lemma readOpenTag_progress_strict xml tag logger found xml' logger' :
  isStartElement xml = true -> name xml <> tag ->
  readOpenTag xml tag logger = (found, xml', logger') ->
  (measure xml' < measure xml)%nat.
Proof.
  unfold readOpenTag. intros Hs Hn H.
  apply String.eqb_neq in Hn. rewrite Hn, andb_false_r in H.
  destruct xml as [cur toks]. simpl in H.
  apply readOpenTag_loop_progress in H. destruct H as (_ & H & _).
  apply H. unfold isStartElement in Hs. simpl in Hs. now destruct cur.
Qed.

Lemma readCloseTag_loop_progress tag toks :
  forall cur logger found xml' logger',
    readCloseTag_loop tag cur toks logger = (found, xml', logger') ->
    (measure xml' <= measure (mkReader cur toks))%nat /\
    (found = true -> tokenType xml' = EndElement tag).
Proof.
  induction toks as [|t r IH]; intros cur logger found xml' logger' H; simpl in H.
  - destruct (ends cur) eqn:E.
    + inversion H; subst. split; [lia|discriminate].
    + inversion H; subst. unfold measure, atEnd. simpl. split; [lia|discriminate].
  - destruct (ends cur) eqn:E.
    + inversion H; subst. split; [lia|discriminate].
    + assert (M : measure (mkReader cur (t :: r)) = S (S (List.length r)))
        by (unfold measure, atEnd; simpl; now rewrite E).
      rewrite M. pose proof (measure_mk_le t r) as Ht.
      destruct t; try (apply IH in H; destruct H as [H1 H2]; split; [lia|exact H2]).
      destruct (String.eqb name0 tag) eqn:En.
      * inversion H; subst. apply String.eqb_eq in En. subst. split; [lia|reflexivity].
      * apply IH in H. destruct H as [H1 H2]. split; [lia|exact H2].
Qed.

Lemma readCloseTag_progress xml tag logger found xml' logger' :
  readCloseTag xml tag logger = (found, xml', logger') ->
  (measure xml' <= measure xml)%nat /\
  (found = true -> tokenType xml' = EndElement tag).
Proof.
  unfold readCloseTag. intros H.
  destruct (isEndElement xml && String.eqb (name xml) tag) eqn:E.
  - inversion H; subst. apply andb_prop in E. destruct E as [E1 E2].
    apply String.eqb_eq in E2. split; [lia|intros _].
    unfold isEndElement, name in *. destruct (tokenType xml'); try discriminate.
    now subst.
  - destruct xml as [cur toks]. simpl in H.
    apply readCloseTag_loop_progress in H. exact H.
Qed.

Lemma readElementText_loop_progress toks :
  forall result text xml',
    readElementText_loop result toks = (text, xml') ->
    (measure xml' <= List.length toks)%nat.
Proof.
  induction toks as [|t r IH]; intros result text xml' H; simpl in H.
  - inversion H; subst. unfold measure. simpl. lia.
  - pose proof (measure_mk_le t r) as Ht.
    destruct t; try (apply IH in H; simpl; lia);
      inversion H; subst; simpl; unfold measure; simpl; lia.
Qed.

Lemma readElementText_progress xml text xml' :
  isStartElement xml = true ->
  readElementText xml = (text, xml') ->
  (measure xml' < measure xml)%nat.
Proof.
  unfold readElementText. intros Hs H. rewrite Hs in H.
  apply readElementText_loop_progress in H.
  unfold measure at 2. unfold atEnd. unfold isStartElement in Hs.
  destruct (tokenType xml); try discriminate. simpl. lia.
Qed.

(** ** The loops over elements come to an end *)

Lemma readGroup_loop_progress fuel :
  forall gid xml group logger r xml' group' logger',
    readGroup_loop fuel gid xml group logger = Some (r, xml', group', logger') ->
    (measure xml' <= measure xml)%nat /\
    (isStartElement xml = true -> name xml <> "string" ->
     (measure xml' < measure xml)%nat).
Proof.
  induction fuel as [|fuel IH]; intros gid xml group logger r xml' group' logger' H;
    simpl in H; [discriminate|].
  destruct (readOpenTag xml "string" logger) as [[found xml1] logger1] eqn:E.
  pose proof (readOpenTag_progress _ _ _ _ _ _ E) as [P1 P2].
  assert (P3 : isStartElement xml = true -> name xml <> "string" ->
               (measure xml1 < measure xml)%nat)
    by (intros; eapply readOpenTag_progress_strict; eauto).
  destruct found.
  - destruct (P2 eq_refl) as [S1 _].
    destruct (QString.toInt (value (attributes xml1) "id")) as [textId|].
    + destruct (negb (textId =? size group)).
      * inversion H; subst. split; [lia|exact P3].
      * destruct (readElementText xml1) as [text xml2] eqn:E2.
        pose proof (readElementText_progress _ _ _ S1 E2) as P4.
        destruct (readCloseTag xml2 "string" logger1) as [[closed xml3] logger3] eqn:E3.
        pose proof (readCloseTag_progress _ _ _ _ _ _ E3) as [P5 _].
        apply IH in H. destruct H as [P6 _]. split; intros; lia.
    + inversion H; subst. split; [lia|exact P3].
  - inversion H; subst. split; [lia|exact P3].
Qed.

Lemma readGroup_loop_total fuel :
  forall gid xml group logger,
    (measure xml < fuel)%nat ->
    exists r, readGroup_loop fuel gid xml group logger = Some r.
Proof.
  induction fuel as [|fuel IH]; intros gid xml group logger Hm; [lia|].
  simpl.
  destruct (readOpenTag xml "string" logger) as [[found xml1] logger1] eqn:E.
  pose proof (readOpenTag_progress _ _ _ _ _ _ E) as [P1 P2].
  destruct found; [|eauto].
  destruct (P2 eq_refl) as [S1 _].
  destruct (QString.toInt (value (attributes xml1) "id")) as [textId|]; [|eauto].
  destruct (negb (textId =? size group)); [eauto|].
  destruct (readElementText xml1) as [text xml2] eqn:E2.
  pose proof (readElementText_progress _ _ _ S1 E2) as P4.
  destruct (readCloseTag xml2 "string" logger1) as [[closed xml3] logger3] eqn:E3.
  pose proof (readCloseTag_progress _ _ _ _ _ _ E3) as [P5 _].
  apply IH. lia.
Qed.

(** [readGroup] returns, whatever the reader stands on. *)
Lemma readGroup_total file xml logger :
  exists r, readGroup file xml logger = Some r.
Proof.
  unfold readGroup.
  destruct (negb (hasAttribute (attributes xml) "id")); [eauto|].
  destruct (QString.toInt (value (attributes xml) "id")) as [gid|]; [|eauto].
  destruct (readGroup_loop_total (budget xml) gid xml (TextGroup_new gid) logger
              (measure_le_budget xml)) as [[[[r xml1] group] logger1] ->].
  destruct r; eauto.
Qed.

(** What [readGroup] does to the document: nothing when it fails, one
    more group at the end when it succeeds. *)
Lemma readGroup_file file xml logger r file' xml' logger' :
  readGroup file xml logger = Some (r, file', xml', logger') ->
  (r = false -> file' = file) /\
  (r = true -> exists group, file' = append_group file group) /\
  (measure xml' <= measure xml)%nat /\
  (r = true -> isStartElement xml = true -> name xml <> "string" ->
   (measure xml' < measure xml)%nat).
Proof.
  unfold readGroup. intros H.
  destruct (negb (hasAttribute (attributes xml) "id")).
  { inversion H; subst. repeat split; try lia; intros; try discriminate. }
  destruct (QString.toInt (value (attributes xml) "id")) as [gid|].
  2: { inversion H; subst. repeat split; try lia; intros; try discriminate. }
  destruct (readGroup_loop (budget xml) gid xml (TextGroup_new gid) logger)
    as [[[[r1 xml1] group] logger1]|] eqn:E; [|discriminate].
  apply readGroup_loop_progress in E. destruct E as [P1 P2].
  destruct r1; inversion H; subst; repeat split; intros; try discriminate;
    try lia; eauto.
Qed.

Lemma readFile_loop_total fuel :
  forall file xml logger,
    (measure xml < fuel)%nat ->
    exists r, readFile_loop fuel file xml logger = Some r.
Proof.
  induction fuel as [|fuel IH]; intros file xml logger Hm; [lia|].
  simpl.
  destruct (readOpenTag xml "group" logger) as [[found xml1] logger1] eqn:E.
  pose proof (readOpenTag_progress _ _ _ _ _ _ E) as [P1 P2].
  destruct found; [|eauto].
  destruct (P2 eq_refl) as [S1 S2].
  destruct (readGroup_total file xml1 logger1) as [[[[r file2] xml2] logger2] E2].
  rewrite E2. destruct r; [|eauto].
  apply readGroup_file in E2. destruct E2 as (_ & _ & _ & P3).
  assert (P4 : (measure xml2 < measure xml1)%nat)
    by (apply P3; auto; rewrite S2; discriminate).
  destruct (readCloseTag xml2 "group" logger2) as [[closed xml3] logger3] eqn:E3.
  pose proof (readCloseTag_progress _ _ _ _ _ _ E3) as [P5 _].
  destruct closed; [|eauto]. apply IH. lia.
Qed.

Lemma readFile_total file xml logger :
  exists r, readFile file xml logger = Some r.
Proof.
  unfold readFile.
  destruct (readOpenTag xml "strings" logger) as [[found xml1] logger1].
  destruct (negb found); [eauto|].
  match goal with
  | |- context [readFile_loop ?f ?a ?b ?c] =>
      destruct (readFile_loop_total f a b c (measure_le_budget b))
        as [[[[r file3] xml3] logger3] ->]
  end.
  destruct r; [|eauto].
  destruct (readCloseTag xml3 "strings" logger3) as [[closed xml4] logger4]. eauto.
Qed.

(** [read] returns on every document and every device. *)
Lemma read_total file device logger :
  exists result file' logger', read file device logger = Some (result, file', logger').
Proof.
  unfold read. destruct (negb (canOpen device)); [eauto|].
  destruct (readFile_total file (mkReader NoToken (document device)) logger)
    as [[[[r file'] xml'] logger'] ->]. eauto.
Qed.

(** More rounds than needed change nothing. *)
Lemma readGroup_loop_more fuel :
  forall fuel' gid xml group logger r,
    readGroup_loop fuel gid xml group logger = Some r ->
    (fuel <= fuel')%nat ->
    readGroup_loop fuel' gid xml group logger = Some r.
Proof.
  induction fuel as [|fuel IH]; intros fuel' gid xml group logger r H Hle;
    [discriminate|].
  destruct fuel' as [|fuel']; [lia|]. simpl in *.
  destruct (readOpenTag xml "string" logger) as [[found xml1] logger1].
  destruct found; [|exact H].
  destruct (QString.toInt (value (attributes xml1) "id")) as [textId|]; [|exact H].
  destruct (negb (textId =? size group)); [exact H|].
  destruct (readElementText xml1) as [text xml2].
  destruct (readCloseTag xml2 "string" logger1) as [[closed xml3] logger3].
  apply IH; [exact H|lia].
Qed.

Lemma readFile_loop_more fuel :
  forall fuel' file xml logger r,
    readFile_loop fuel file xml logger = Some r ->
    (fuel <= fuel')%nat ->
    readFile_loop fuel' file xml logger = Some r.
Proof.
  induction fuel as [|fuel IH]; intros fuel' file xml logger r H Hle; [discriminate|].
  destruct fuel' as [|fuel']; [lia|]. simpl in *.
  destruct (readOpenTag xml "group" logger) as [[found xml1] logger1].
  destruct found; [|exact H].
  destruct (readGroup file xml1 logger1) as [[[[r2 file2] xml2] logger2]|]; [|exact H].
  destruct r2; [|exact H].
  destruct (readCloseTag xml2 "group" logger2) as [[closed xml3] logger3].
  destruct closed; [|exact H]. apply IH; [exact H|lia].
Qed.

(** The result of a loop does not depend on the rounds it is given, once
    it has enough of them. *)
Lemma readGroup_loop_budget fuel gid xml group logger r :
  readGroup_loop fuel gid xml group logger = Some r ->
  readGroup_loop (budget xml) gid xml group logger = Some r.
Proof.
  intros H.
  destruct (readGroup_loop_total (budget xml) gid xml group logger
              (measure_le_budget xml)) as [r' H'].
  pose proof (readGroup_loop_more _ (Nat.max fuel (budget xml)) _ _ _ _ _ H
                (Nat.le_max_l _ _)) as H1.
  pose proof (readGroup_loop_more _ (Nat.max fuel (budget xml)) _ _ _ _ _ H'
                (Nat.le_max_r _ _)) as H2.
  congruence.
Qed.

Lemma readFile_loop_budget fuel file xml logger r :
  readFile_loop fuel file xml logger = Some r ->
  readFile_loop (budget xml) file xml logger = Some r.
Proof.
  intros H.
  destruct (readFile_loop_total (budget xml) file xml logger
              (measure_le_budget xml)) as [r' H'].
  pose proof (readFile_loop_more _ (Nat.max fuel (budget xml)) _ _ _ _ H
                (Nat.le_max_l _ _)) as H1.
  pose proof (readFile_loop_more _ (Nat.max fuel (budget xml)) _ _ _ _ H'
                (Nat.le_max_r _ _)) as H2.
  congruence.
Qed.

(** ** The tag matcher *)

Lemma skipped_not_ends t : skipped t = true -> ends t = false.
Proof. destruct t; simpl; congruence. Qed.

(** The tokens read over leave the loop of [readOpenTag] where it was. *)
Lemma readOpenTag_loop_skip tag pre :
  forall cur rest logger,
    ends cur = false -> forallb skipped pre = true ->
    exists cur',
      ends cur' = false /\
      readOpenTag_loop tag cur (pre ++ rest) logger =
      readOpenTag_loop tag cur' rest logger.
Proof.
  induction pre as [|t pre IH]; intros cur rest logger Hc Hp.
  - exists cur. split; [exact Hc|reflexivity].
  - simpl in Hp. apply andb_prop in Hp. destruct Hp as [Ht Hp].
    destruct (IH t rest logger (skipped_not_ends _ Ht) Hp) as (cur' & Hc' & E).
    exists cur'. split; [exact Hc'|].
    simpl. rewrite Hc. rewrite <- E. destruct t; try discriminate Ht; reflexivity.
Qed.

(** A list of tokens is read over as a whole, or up to a first token
    that is not. *)
Lemma first_not_skipped toks :
  forallb skipped toks = true \/
  exists pre e post,
    toks = pre ++ e :: post /\ forallb skipped pre = true /\ skipped e = false.
Proof.
  induction toks as [|t r IH]; [left; reflexivity|].
  destruct (skipped t) eqn:Et.
  - destruct IH as [IH|(pre & e & post & E & Hp & He)].
    + left. simpl. now rewrite Et.
    + right. exists (t :: pre), e, post. subst. simpl. rewrite Et. auto.
  - right. exists [], t, r. auto.
Qed.

Lemma readOpenTag_on_start xml tag logger :
  onStart xml tag = true -> readOpenTag xml tag logger = (true, xml, logger).
Proof. unfold readOpenTag, onStart. now intros ->. Qed.

Lemma readOpenTag_scan xml tag logger pre e post :
  onStart xml tag = false -> atEnd xml = false ->
  pending xml = pre ++ e :: post -> forallb skipped pre = true ->
  readOpenTag xml tag logger =
  match e with
  | Invalid message =>
      (false, mkReader e post, error logger (QString.arg "Invalid XML: %s" message))
  | EndDocument | EndElement _ => (false, mkReader e post, logger)
  | StartElement n _ =>
      if String.eqb n tag then (true, mkReader e post, logger)
      else (false, mkReader e post,
            error logger (QString.arg2 "Invalid XML: expected tag <%1>, got <%2>" tag n))
  | _ => readOpenTag_loop tag e post logger
  end.
Proof.
  unfold readOpenTag, onStart, atEnd. intros -> Ha Hp Hs. rewrite Hp.
  destruct (readOpenTag_loop_skip tag pre (tokenType xml) (e :: post) logger Ha Hs)
    as (cur' & Hc' & ->).
  simpl. rewrite Hc'. destruct e; reflexivity.
Qed.

Lemma readOpenTag_stops_short xml tag logger :
  onStart xml tag = false -> atEnd xml = false ->
  forallb skipped (pending xml) = true ->
  readOpenTag xml tag logger =
  (false, mkReader (Invalid prematureEnd) [],
   error logger (QString.arg "Invalid XML: %s" prematureEnd)).
Proof.
  unfold readOpenTag, onStart, atEnd. intros -> Ha Hs.
  destruct (readOpenTag_loop_skip tag (pending xml) (tokenType xml) [] logger Ha Hs)
    as (cur' & Hc' & E).
  rewrite app_nil_r in E. rewrite E. simpl. now rewrite Hc'.
Qed.

Lemma error_neq logger message : error logger message <> logger.
Proof.
  unfold error. intros E. apply (f_equal (@List.length string)) in E.
  rewrite length_app in E. simpl in E. lia.
Qed.

Lemma readOpenTag_loop_at_end tag cur toks logger :
  ends cur = true ->
  readOpenTag_loop tag cur toks logger =
  (false, mkReader cur toks, error logger "Invalid XML: unexpected end of file").
Proof. intros H. destruct toks; simpl; now rewrite H. Qed.

(** C2: when the first token [readOpenTag] reads that it does not skip is
    an end element or the end of the document, it returns false, leaves
    the reader on that token and gives the logger nothing.  When it does
    give the logger a message it returns false, the message is one, and
    the reason is one of: the reader was at its end already, the first
    token not skipped is a start element of another name, it is an invalid
    token, or the tokens stop before any of these (which the tokenizer
    reports as an invalid token). *)
Theorem readOpenTag_silent_on_end xml tag logger found xml' logger' :
  readOpenTag xml tag logger = (found, xml', logger') ->
  (forall pre e post,
      onStart xml tag = false -> atEnd xml = false ->
      pending xml = pre ++ e :: post -> forallb skipped pre = true ->
      (e = EndDocument \/ exists n, e = EndElement n) ->
      found = false /\ logger' = logger /\ xml' = mkReader e post) /\
  (logger' <> logger ->
   found = false /\
   exists message, logger' = error logger message /\ OpenTagError tag xml message).
Proof.
  intros H. split.
  - intros pre e post Hs Ha Hp Hk He.
    rewrite (readOpenTag_scan _ _ _ _ _ _ Hs Ha Hp Hk) in H.
    destruct He as [->|[n ->]]; inversion H; auto.
  - intros Hl. destruct (onStart xml tag) eqn:Hs.
    { rewrite (readOpenTag_on_start _ _ _ Hs) in H. inversion H; subst. congruence. }
    destruct (atEnd xml) eqn:Ha.
    { unfold readOpenTag in H. unfold onStart in Hs. rewrite Hs in H.
      rewrite (readOpenTag_loop_at_end _ _ _ _ Ha) in H. inversion H; subst.
      split; [reflexivity|]. eexists. split; [reflexivity|]. now constructor. }
    destruct (first_not_skipped (pending xml)) as [Hk|(pre & e & post & Hp & Hk & He)].
    { rewrite (readOpenTag_stops_short _ _ _ Hs Ha Hk) in H. inversion H; subst.
      split; [reflexivity|]. eexists. split; [reflexivity|]. now constructor. }
    rewrite (readOpenTag_scan _ _ _ _ _ _ Hs Ha Hp Hk) in H.
    destruct e; try discriminate He.
    + inversion H; subst. split; [reflexivity|]. eexists. split; [reflexivity|].
      econstructor; eauto.
    + inversion H; subst. congruence.
    + destruct (String.eqb name0 tag) eqn:En.
      * inversion H; subst. congruence.
      * inversion H; subst. split; [reflexivity|]. eexists. split; [reflexivity|].
        apply String.eqb_neq in En. econstructor; eauto.
    + inversion H; subst. congruence.
Qed.

Lemma readOpenTag_silent_on_end_witness :
  (false = false /\ @nil string = [] /\
   mkReader (EndElement "strings") [EndDocument]
   = mkReader (EndElement "strings") [EndDocument]) /\
  (false = false /\
   exists message,
     ["Invalid XML: expected tag <group>, got <foo>"] = error [] message /\
     OpenTagError "group"
       (mkReader (StartElement "strings" []) [Comment; StartElement "foo" []]) message).
Proof.
  split.
  - apply (proj1 (readOpenTag_silent_on_end
                    (mkReader (EndElement "group")
                       [Characters " "; EndElement "strings"; EndDocument])
                    "group" [] false (mkReader (EndElement "strings") [EndDocument]) []
                    eq_refl)
             [Characters " "] (EndElement "strings") [EndDocument]);
      try reflexivity.
    right. exists "strings". reflexivity.
  - apply (proj2 (readOpenTag_silent_on_end
                    (mkReader (StartElement "strings" []) [Comment; StartElement "foo" []])
                    "group" [] false (mkReader (StartElement "foo" []) [])
                    ["Invalid XML: expected tag <group>, got <foo>"] eq_refl)).
    discriminate.
Defined.

(** *** The close tag *)

Lemma passed_not_ends tag t : passed tag t = true -> ends t = false.
Proof. destruct t; simpl; congruence. Qed.

Lemma readCloseTag_loop_skip tag pre :
  forall cur rest logger,
    ends cur = false -> forallb (passed tag) pre = true ->
    exists cur',
      ends cur' = false /\
      readCloseTag_loop tag cur (pre ++ rest) logger =
      readCloseTag_loop tag cur' rest logger.
Proof.
  induction pre as [|t pre IH]; intros cur rest logger Hc Hp.
  - exists cur. split; [exact Hc|reflexivity].
  - simpl in Hp. apply andb_prop in Hp. destruct Hp as [Ht Hp].
    destruct (IH t rest logger (passed_not_ends _ _ Ht) Hp) as (cur' & Hc' & E).
    exists cur'. split; [exact Hc'|].
    simpl. rewrite Hc. rewrite <- E. destruct t; try reflexivity.
    simpl in Ht. apply negb_true_iff in Ht. now rewrite Ht.
Qed.

Lemma readCloseTag_loop_at_end tag cur toks logger :
  ends cur = true ->
  readCloseTag_loop tag cur toks logger =
  (false, mkReader cur toks,
   error logger (QString.arg "Invalid XML: end element </%1> not found" tag)).
Proof. intros H. destruct toks; simpl; now rewrite H. Qed.

Lemma missing_close_message tag :
  QString.arg "Invalid XML: end element </%1> not found" tag
  = "Invalid XML: end element </" +++ tag +++ "> not found".
Proof. reflexivity. Qed.

(** C8: [readCloseTag] succeeds at once on the end element asked for;
    otherwise it reads over every token that is neither that end element
    nor the end of the stream (start elements, end elements of other
    names, nested elements) and succeeds on the first end element of the
    name, with no message; when the stream ends first (the reader is at
    its end, the tokens stop, or the end of the document or an invalid
    token comes first) it fails with the message that names the tag. *)
Theorem readCloseTag_skips_to_end_element xml tag logger :
  (onEnd xml tag = true -> readCloseTag xml tag logger = (true, xml, logger)) /\
  (forall pre post,
      onEnd xml tag = false -> atEnd xml = false ->
      pending xml = pre ++ EndElement tag :: post ->
      forallb (passed tag) pre = true ->
      readCloseTag xml tag logger = (true, mkReader (EndElement tag) post, logger)) /\
  (onEnd xml tag = false ->
   (atEnd xml = true \/
    forallb (passed tag) (pending xml) = true \/
    exists pre e post,
      pending xml = pre ++ e :: post /\ forallb (passed tag) pre = true /\
      ends e = true) ->
   exists xml',
     readCloseTag xml tag logger =
     (false, xml',
      error logger ("Invalid XML: end element </" +++ tag +++ "> not found")) /\
     atEnd xml' = true).
Proof.
  unfold readCloseTag, onEnd. repeat split.
  - now intros ->.
  - intros pre post -> Ha Hp Hk. rewrite Hp.
    destruct (readCloseTag_loop_skip tag pre (tokenType xml) (EndElement tag :: post)
                logger Ha Hk) as (cur' & Hc' & ->).
    simpl. rewrite Hc'. now rewrite String.eqb_refl.
  - intros -> Hcase. rewrite <- missing_close_message.
    destruct (atEnd xml) eqn:Ha.
    { rewrite (readCloseTag_loop_at_end _ _ _ _ Ha). destruct xml. eauto. }
    destruct Hcase as [Hcase|[Hk|(pre & e & post & Hp & Hk & He)]]; [discriminate| |].
    + destruct (readCloseTag_loop_skip tag (pending xml) (tokenType xml) [] logger
                  Ha Hk) as (cur' & Hc' & E).
      rewrite app_nil_r in E. rewrite E. simpl. rewrite Hc'. eauto.
    + rewrite Hp.
      destruct (readCloseTag_loop_skip tag pre (tokenType xml) (e :: post) logger
                  Ha Hk) as (cur' & Hc' & ->).
      simpl. rewrite Hc'.
      assert (E : readCloseTag_loop tag e post logger =
                  (false, mkReader e post,
                   error logger
                     (QString.arg "Invalid XML: end element </%1> not found" tag)))
        by (apply readCloseTag_loop_at_end; exact He).
      destruct e; try discriminate He; rewrite E; eauto.
Qed.

Lemma readCloseTag_skips_to_end_element_witness :
  readCloseTag (mkReader (EndElement "group") [EndElement "strings"]) "group" []
  = (true, mkReader (EndElement "group") [EndElement "strings"], []) /\
  readCloseTag
    (mkReader (StartElement "group" [])
       [StartElement "b" []; EndElement "string"; Characters "x";
        EndElement "group"; EndElement "strings"])
    "group" []
  = (true, mkReader (EndElement "group") [EndElement "strings"], []) /\
  exists xml',
    readCloseTag
      (mkReader (EndElement "string") [EndElement "group"; EndDocument; EndElement "strings"])
      "strings" ["earlier"]
    = (false, xml', ["earlier"; "Invalid XML: end element </strings> not found"]) /\
    atEnd xml' = true.
Proof.
  repeat apply conj.
  - apply (proj1 (readCloseTag_skips_to_end_element
                    (mkReader (EndElement "group") [EndElement "strings"]) "group" [])).
    reflexivity.
  - apply (proj1 (proj2 (readCloseTag_skips_to_end_element
                           (mkReader (StartElement "group" [])
                              [StartElement "b" []; EndElement "string"; Characters "x";
                               EndElement "group"; EndElement "strings"])
                           "group" []))
             [StartElement "b" []; EndElement "string"; Characters "x"]
             [EndElement "strings"]); reflexivity.
  - apply (proj2 (proj2 (readCloseTag_skips_to_end_element
                           (mkReader (EndElement "string")
                              [EndElement "group"; EndDocument; EndElement "strings"])
                           "strings" ["earlier"]))).
    + reflexivity.
    + right. right. exists [EndElement "group"], EndDocument, [EndElement "strings"].
      repeat split; reflexivity.
Defined.

(** *** The message for an invalid token *)

(** [%s] is no place marker of [arg]: the text is logged as it stands,
    whatever the tokenizer's message is. *)
Lemma invalid_token_message message :
  QString.arg "Invalid XML: %s" message = "Invalid XML: %s".
Proof. reflexivity. Qed.

Lemma readOpenTag_invalid xml tag logger pre message post :
  onStart xml tag = false -> atEnd xml = false ->
  pending xml = pre ++ Invalid message :: post -> forallb skipped pre = true ->
  readOpenTag xml tag logger
  = (false, mkReader (Invalid message) post, error logger "Invalid XML: %s").
Proof.
  intros Hs Ha Hp Hk. now rewrite (readOpenTag_scan _ _ _ _ _ _ Hs Ha Hp Hk).
Qed.

(** C6: on a document whose second token is invalid, with the tokenizer's
    message "Opening and ending tag mismatch.", [readOpenTag] fails and
    logs the text "Invalid XML: %s", which does not contain that message. *)
Theorem readOpenTag_invalid_drops_message :
  readOpenTag
    (mkReader NoToken [StartDocument; Invalid "Opening and ending tag mismatch."])
    "strings" []
  = (false, mkReader (Invalid "Opening and ending tag mismatch.") [],
     ["Invalid XML: %s"]) /\
  QString.contains "Invalid XML: %s" "Opening and ending tag mismatch." = false.
Proof. split; reflexivity. Qed.

(** ** Errors and the result of read *)

(** C1: a start element of another name where a group is looked for is
    reported to the logger, and [read] goes on and returns true; and a
    string element with a child element is reported three times,
    [readGroup] going on after the first message before [read] returns
    false. *)
Theorem read_succeeds_after_error :
  read TextFile_new
    (doc [StartElement "strings" []; StartElement "foo" []; EndElement "foo";
          EndElement "strings"]) []
  = Some (true, TextFile_new, ["Invalid XML: expected tag <group>, got <foo>"]) /\
  read TextFile_new
    (doc [StartElement "strings" []; StartElement "group" [("id", "0")];
          StartElement "string" [("id", "0")]; StartElement "b" []; EndElement "b";
          EndElement "string"; EndElement "group"; EndElement "strings"]) []
  = Some (false, mkFile "" true [mkGroup 0 [""]],
          ["Invalid XML: end element </string> not found";
           "Invalid XML: unexpected end of file";
           "Invalid XML: end element </group> not found"]).
Proof. split; reflexivity. Qed.

(** ** Reading well-formed elements *)

Lemma append_nil_r s : s +++ "" = s.
Proof. induction s; simpl; congruence. Qed.

Lemma append_assoc a b c : (a +++ b) +++ c = a +++ b +++ c.
Proof. induction a; simpl; congruence. Qed.

Lemma readOpenTag_finds xml tag logger pre attrs post :
  onStart xml tag = false -> atEnd xml = false ->
  pending xml = pre ++ StartElement tag attrs :: post -> forallb skipped pre = true ->
  readOpenTag xml tag logger = (true, mkReader (StartElement tag attrs) post, logger).
Proof.
  intros Hs Ha Hp Hk. rewrite (readOpenTag_scan _ _ _ _ _ _ Hs Ha Hp Hk).
  now rewrite String.eqb_refl.
Qed.

Lemma readOpenTag_end_element xml tag logger pre n post :
  onStart xml tag = false -> atEnd xml = false ->
  pending xml = pre ++ EndElement n :: post -> forallb skipped pre = true ->
  readOpenTag xml tag logger = (false, mkReader (EndElement n) post, logger).
Proof.
  intros Hs Ha Hp Hk. now rewrite (readOpenTag_scan _ _ _ _ _ _ Hs Ha Hp Hk).
Qed.

Lemma readElementText_loop_body body :
  forall result n post,
    forallb textual body = true ->
    readElementText_loop result (body ++ EndElement n :: post)
    = (result +++ elementText body, mkReader (EndElement n) post).
Proof.
  induction body as [|t body IH]; intros result n post Hb; simpl.
  - now rewrite append_nil_r.
  - simpl in Hb. apply andb_prop in Hb. destruct Hb as [Ht Hb].
    destruct t; try discriminate Ht; rewrite IH by exact Hb;
      now rewrite ?append_assoc.
Qed.

Lemma readElementText_body n attrs body m post :
  forallb textual body = true ->
  readElementText (mkReader (StartElement n attrs) (body ++ EndElement m :: post))
  = (elementText body, mkReader (EndElement m) post).
Proof.
  intros Hb. unfold readElementText. simpl.
  now rewrite (readElementText_loop_body body "" m post Hb).
Qed.

Lemma readCloseTag_on_end xml tag logger :
  onEnd xml tag = true -> readCloseTag xml tag logger = (true, xml, logger).
Proof. unfold readCloseTag, onEnd. now intros ->. Qed.

Lemma stringTokens_app e rest :
  stringTokens e ++ rest
  = s_lead e ++ StartElement "string" (s_attrs e) :: s_body e
      ++ EndElement "string" :: rest.
Proof.
  unfold stringTokens. rewrite <- app_assoc. simpl. now rewrite <- app_assoc.
Qed.

(** The loop of [readGroup] takes one round for each string element that
    is well formed and numbered as the group stands. *)
Lemma readGroup_loop_strings elems :
  forall fuel gid cur rest group logger,
    ends cur = false -> onStart (mkReader cur []) "string" = false ->
    forallb goodString elems = true ->
    stringIds (size group) elems = true ->
    readGroup_loop (List.length elems + fuel) gid
      (mkReader cur (flat_map stringTokens elems ++ rest)) group logger
    = readGroup_loop fuel gid (mkReader (restsOn cur "string" elems) rest)
        (mkGroup (id group)
           (strings group ++ map (fun e => elementText (s_body e)) elems))
        logger.
Proof.
  induction elems as [|e elems IH]; intros fuel gid cur rest group logger Hc Hs Hg Hi.
  - simpl. rewrite app_nil_r. now destruct group.
  - simpl in Hg, Hi. apply andb_prop in Hg. destruct Hg as [Hg Hgs].
    unfold goodString in Hg. apply andb_prop in Hg. destruct Hg as [Hl Hb].
    destruct (QString.toInt (value (s_attrs e) "id")) as [j|] eqn:Ej;
      [|discriminate Hi].
    apply andb_prop in Hi. destruct Hi as [Hj Hi]. apply Z.eqb_eq in Hj. subst j.
    cbn [List.length Nat.add readGroup_loop flat_map].
    rewrite <- app_assoc, stringTokens_app.
    rewrite (readOpenTag_finds (mkReader cur _) "string" logger (s_lead e)
               (s_attrs e) (s_body e ++ EndElement "string"
                            :: flat_map stringTokens elems ++ rest));
      [|exact Hs|exact Hc|reflexivity|exact Hl].
    cbn [attributes tokenType]. rewrite Ej, Z.eqb_refl. cbn [negb].
    rewrite (readElementText_body _ _ _ _ _ Hb).
    rewrite readCloseTag_on_end by reflexivity.
    rewrite IH; try reflexivity; try exact Hgs.
    + cbn [add id strings]. rewrite <- app_assoc. cbn [app map].
      destruct elems; reflexivity.
    + unfold size, add. cbn [strings]. rewrite length_app. cbn [List.length].
      replace (Z.of_nat (List.length (strings group) + 1))
        with (size group + 1) by (unfold size; lia).
      exact Hi.
Qed.

Lemma restsOn_string_ok n attrs (elems : list StringElem) :
  n <> "string" ->
  ends (restsOn (StartElement n attrs) "string" elems) = false /\
  onStart (mkReader (restsOn (StartElement n attrs) "string" elems) []) "string" = false.
Proof.
  intros Hn. destruct elems; simpl; split; try reflexivity.
  unfold onStart. simpl. now apply String.eqb_neq.
Qed.

Lemma onStart_pending cur toks toks' tag :
  onStart (mkReader cur toks) tag = onStart (mkReader cur toks') tag.
Proof. reflexivity. Qed.

(** [readGroup] on a group element: after the string elements that are
    well formed and in order, the result is what the loop does on what
    follows them. *)
Lemma readGroup_prefix g file tail logger fuel r :
  hasAttribute (g_attrs g) "id" = true ->
  forallb goodString (g_strings g) = true ->
  stringIds 0 (g_strings g) = true ->
  QString.toInt (value (g_attrs g) "id") = Some (groupId g) ->
  readGroup_loop fuel (groupId g)
    (mkReader (restsOn (StartElement "group" (g_attrs g)) "string" (g_strings g)) tail)
    (groupOf g) logger = Some r ->
  readGroup file
    (mkReader (StartElement "group" (g_attrs g))
       (flat_map stringTokens (g_strings g) ++ tail)) logger
  = Some (match r with
          | (true, xml', group, logger') => (true, append_group file group, xml', logger')
          | (false, xml', _, logger') => (false, file, xml', logger')
          end).
Proof.
  intros Ha Hg Hi Ht Hr. unfold readGroup. cbn [attributes tokenType].
  rewrite Ha, Ht. cbn [negb].
  assert (E : readGroup_loop (List.length (g_strings g) + fuel) (groupId g)
                (mkReader (StartElement "group" (g_attrs g))
                   (flat_map stringTokens (g_strings g) ++ tail))
                (TextGroup_new (groupId g)) logger = Some r).
  { rewrite readGroup_loop_strings; try assumption; try reflexivity. }
  apply readGroup_loop_budget in E. rewrite E.
  destruct r as [[[b xml'] group] logger']. destruct b; reflexivity.
Qed.

Lemma goodGroupStart_parts g :
  goodGroupStart g = true ->
  forallb skipped (g_lead g) = true /\
  hasAttribute (g_attrs g) "id" = true /\
  QString.toInt (value (g_attrs g) "id") = Some (groupId g).
Proof.
  unfold goodGroupStart, groupId. intros H.
  apply andb_prop in H. destruct H as [H Hint].
  apply andb_prop in H. destruct H as [Hlead Hattr].
  destruct (QString.toInt (value (g_attrs g) "id")); [auto|discriminate].
Qed.

Lemma goodGroup_parts g :
  goodGroup g = true ->
  forallb skipped (g_lead g) = true /\
  hasAttribute (g_attrs g) "id" = true /\
  QString.toInt (value (g_attrs g) "id") = Some (groupId g) /\
  forallb goodString (g_strings g) = true /\
  stringIds 0 (g_strings g) = true /\
  forallb skipped (g_trail g) = true.
Proof.
  unfold goodGroup. intros H.
  apply andb_prop in H. destruct H as [H Htrail].
  apply andb_prop in H. destruct H as [H Hids].
  apply andb_prop in H. destruct H as [Hstart Hstrs].
  destruct (goodGroupStart_parts _ Hstart) as (? & ? & ?). auto 10.
Qed.

(** A group element that is well formed is read as the group it stands
    for, and the reader rests on its end element. *)
Lemma readGroup_good g file rest logger :
  goodGroup g = true ->
  readGroup file
    (mkReader (StartElement "group" (g_attrs g))
       (flat_map stringTokens (g_strings g) ++ g_trail g ++ EndElement "group" :: rest))
    logger
  = Some (true, append_group file (groupOf g), mkReader (EndElement "group") rest, logger).
Proof.
  intros H. destruct (goodGroup_parts _ H) as (Hlead & Hattr & Ht & Hstrs & Hids & Htrail).
  assert (L : readGroup_loop 1 (groupId g)
                (mkReader (restsOn (StartElement "group" (g_attrs g)) "string"
                             (g_strings g))
                   (g_trail g ++ EndElement "group" :: rest))
                (groupOf g) logger
              = Some (true, mkReader (EndElement "group") rest, groupOf g, logger)).
  { cbn [readGroup_loop].
    destruct (restsOn_string_ok "group" (g_attrs g) (g_strings g)) as [R1 R2];
      [discriminate|].
    rewrite (readOpenTag_end_element _ "string" logger (g_trail g) "group" rest);
      auto. }
  now rewrite (readGroup_prefix g file _ logger 1 _ Hattr Hstrs Hids Ht L).
Qed.

Lemma groupTokens_app g rest :
  groupTokens g ++ rest
  = g_lead g ++ StartElement "group" (g_attrs g)
      :: flat_map stringTokens (g_strings g) ++ g_trail g ++ EndElement "group" :: rest.
Proof.
  unfold groupTokens, groupOpen. rewrite <- !app_assoc. simpl.
  now rewrite <- ?app_assoc.
Qed.

Lemma withGroups_nil file : withGroups file [] = file.
Proof. destruct file. unfold withGroups. simpl. now rewrite app_nil_r. Qed.

Lemma withGroups_append file group groups :
  withGroups (append_group file group) groups = withGroups file (group :: groups).
Proof. unfold withGroups, append_group. simpl. now rewrite <- app_assoc. Qed.

(** The loop of [readFile] takes one round for each group element that
    is well formed. *)
Lemma readFile_loop_groups groups :
  forall fuel file cur rest logger,
    ends cur = false -> onStart (mkReader cur []) "group" = false ->
    forallb goodGroup groups = true ->
    readFile_loop (List.length groups + fuel) file
      (mkReader cur (flat_map groupTokens groups ++ rest)) logger
    = readFile_loop fuel (withGroups file (map groupOf groups))
        (mkReader (restsOn cur "group" groups) rest) logger.
Proof.
  induction groups as [|g groups IH]; intros fuel file cur rest logger Hc Hs Hg.
  - simpl. now rewrite withGroups_nil.
  - simpl in Hg. apply andb_prop in Hg. destruct Hg as [Hg Hgs].
    cbn [List.length Nat.add readFile_loop flat_map].
    rewrite <- app_assoc, groupTokens_app.
    assert (Hl : forallb skipped (g_lead g) = true)
      by (apply goodGroup_parts in Hg; tauto).
    rewrite (readOpenTag_finds (mkReader cur _) "group" logger (g_lead g) (g_attrs g)
               (flat_map stringTokens (g_strings g) ++ g_trail g
                ++ EndElement "group" :: flat_map groupTokens groups ++ rest));
      [|exact Hs|exact Hc|reflexivity|exact Hl].
    rewrite (readGroup_good g file _ logger Hg).
    rewrite readCloseTag_on_end by reflexivity.
    rewrite IH; try reflexivity; try exact Hgs.
    rewrite withGroups_append. cbn [map]. destruct groups; reflexivity.
Qed.

Lemma restsOn_group_ok n attrs (groups : list GroupElem) :
  n <> "group" ->
  ends (restsOn (StartElement n attrs) "group" groups) = false /\
  onStart (mkReader (restsOn (StartElement n attrs) "group" groups) []) "group" = false.
Proof.
  intros Hn. destruct groups; simpl; split; try reflexivity.
  unfold onStart. simpl. now apply String.eqb_neq.
Qed.

Lemma root_attributes file attrs :
  (if hasAttribute attrs "indexWithCounts"
   then set_indexWithCounts
          (if hasAttribute attrs "name" then set_name file (value attrs "name") else file)
          (negb (String.eqb (value attrs "indexWithCounts") "false"))
   else if hasAttribute attrs "name" then set_name file (value attrs "name") else file)
  = withRoot file attrs.
Proof.
  unfold withRoot, set_name, set_indexWithCounts. destruct file.
  destruct (hasAttribute attrs "name"), (hasAttribute attrs "indexWithCounts");
    reflexivity.
Qed.

(** [readFile] on a document: after the root start element and the group
    elements that are well formed, the result is what the loop does on
    what follows them. *)
Lemma readFile_prefix file cur lead attrs groups tail logger fuel r :
  ends cur = false -> onStart (mkReader cur []) "strings" = false ->
  forallb skipped lead = true ->
  forallb goodGroup groups = true ->
  readFile_loop fuel (withGroups (withRoot file attrs) (map groupOf groups))
    (mkReader (restsOn (StartElement "strings" attrs) "group" groups) tail) logger
  = Some r ->
  readFile file
    (mkReader cur (rootOpen lead attrs ++ flat_map groupTokens groups ++ tail)) logger
  = Some (afterGroups r).
Proof.
  intros Hc Hs Hl Hg Hr. unfold readFile, rootOpen.
  rewrite <- app_assoc. cbn [app].
  rewrite (readOpenTag_finds (mkReader cur _) "strings" logger lead attrs
             (flat_map groupTokens groups ++ tail));
    [|exact Hs|exact Hc|reflexivity|exact Hl].
  cbn [negb attributes tokenType]. cbv zeta. rewrite (root_attributes file attrs).
  assert (E : readFile_loop (List.length groups + fuel) (withRoot file attrs)
                (mkReader (StartElement "strings" attrs)
                   (flat_map groupTokens groups ++ tail)) logger = Some r).
  { rewrite readFile_loop_groups; try assumption; reflexivity. }
  apply readFile_loop_budget in E. rewrite E.
  destruct r as [[[b file3] xml3] logger3]. destruct b; [|reflexivity].
  simpl. destruct (readCloseTag xml3 "strings" logger3) as [[closed xml4] logger4].
  reflexivity.
Qed.

(** A document of well-formed group elements with its root end element
    is read as a whole, with no message. *)
Lemma readFile_good file cur lead attrs groups trail post logger :
  ends cur = false -> onStart (mkReader cur []) "strings" = false ->
  forallb skipped lead = true ->
  forallb goodGroup groups = true ->
  forallb skipped trail = true ->
  readFile file
    (mkReader cur
       (rootOpen lead attrs ++ flat_map groupTokens groups
        ++ trail ++ EndElement "strings" :: post)) logger
  = Some (true, withGroups (withRoot file attrs) (map groupOf groups),
          mkReader (EndElement "strings") post, logger).
Proof.
  intros Hc Hs Hl Hg Ht.
  destruct (restsOn_group_ok "strings" attrs groups) as [R1 R2]; [discriminate|].
  rewrite (readFile_prefix file cur lead attrs groups _ logger 1
             (true, withGroups (withRoot file attrs) (map groupOf groups),
              mkReader (EndElement "strings") post, logger)); auto.
  cbn [readFile_loop].
  now rewrite (readOpenTag_end_element _ "group" logger trail "strings" post).
Qed.

(** A failure of the loop of [readGroup] inside a group element that
    comes after well-formed ones is the failure of [readFile]. *)
Lemma readFile_in_group file cur lead attrs groups g tail logger fuel xml' group logger' :
  ends cur = false -> onStart (mkReader cur []) "strings" = false ->
  forallb skipped lead = true ->
  forallb goodGroup groups = true ->
  goodGroupStart g = true ->
  forallb goodString (g_strings g) = true ->
  stringIds 0 (g_strings g) = true ->
  readGroup_loop fuel (groupId g)
    (mkReader (restsOn (StartElement "group" (g_attrs g)) "string" (g_strings g)) tail)
    (groupOf g) logger = Some (false, xml', group, logger') ->
  readFile file
    (mkReader cur
       (rootOpen lead attrs ++ flat_map groupTokens groups ++ groupOpen g ++ tail))
    logger
  = Some (false, withGroups (withRoot file attrs) (map groupOf groups), xml', logger').
Proof.
  intros Hc Hs Hl Hg Hgs Hstr Hids Hr.
  destruct (goodGroupStart_parts _ Hgs) as (Hgl & Hga & Hgt).
  destruct (restsOn_group_ok "strings" attrs groups) as [R1 R2]; [discriminate|].
  rewrite (readFile_prefix file cur lead attrs groups _ logger 1
             (false, withGroups (withRoot file attrs) (map groupOf groups),
              xml', logger')); auto.
  cbn [readFile_loop]. unfold groupOpen. rewrite <- app_assoc. cbn [app].
  rewrite (readOpenTag_finds _ "group" logger (g_lead g) (g_attrs g)
             (flat_map stringTokens (g_strings g) ++ tail)); auto.
  now rewrite (readGroup_prefix g _ tail logger fuel _ Hga Hstr Hids Hgt Hr).
Qed.

Lemma string_id_message s :
  QString.arg "String ID is not an integer: %1" s = "String ID is not an integer: " +++ s.
Proof. unfold QString.arg. simpl. now rewrite append_nil_r. Qed.

Lemma group_id_message s :
  QString.arg "Group ID is not an integer: %1" s = "Group ID is not an integer: " +++ s.
Proof. unfold QString.arg. simpl. now rewrite append_nil_r. Qed.

Lemma order_message n :
  QString.arg "Strings in group %1 are not ordered properly" n
  = "Strings in group " +++ n +++ " are not ordered properly".
Proof. reflexivity. Qed.

Lemma value_absent attrs key : hasAttribute attrs key = false -> value attrs key = "".
Proof.
  induction attrs as [|[k v] r IH]; simpl; [reflexivity|].
  intros H. apply orb_false_elim in H. destruct H as [Hk Hr].
  rewrite Hk. auto.
Qed.

(** ** The group decoder *)

Lemma read_document file err toks logger :
  read file (mkDevice true err toks) logger
  = match readFile file (mkReader NoToken toks) logger with
    | None => None
    | Some (result, file', _, logger') => Some (result, file', logger')
    end.
Proof. reflexivity. Qed.

Lemma size_groupOf g : size (groupOf g) = Z.of_nat (List.length (g_strings g)).
Proof. unfold size, groupOf. simpl. now rewrite length_map. Qed.

(** C4: in a document whose groups so far are well formed, a string
    element whose [id] is an integer other than the number of the string
    elements before it in its group makes [read] fail, with the message
    that names the id of the group; and a document in which every string
    element has for [id] the number of the string elements before it in
    its group is read, with no message. *)
Theorem read_string_ids_in_order file err lead attrs groups logger :
  forallb skipped lead = true ->
  forallb goodGroup groups = true ->
  (forall trail post,
      forallb skipped trail = true ->
      read file
        (mkDevice true err
           (rootOpen lead attrs ++ flat_map groupTokens groups
            ++ trail ++ EndElement "strings" :: post)) logger
      = Some (true, withGroups (withRoot file attrs) (map groupOf groups), logger)) /\
  (forall g e j more,
      goodGroupStart g = true ->
      forallb goodString (g_strings g) = true ->
      stringIds 0 (g_strings g) = true ->
      forallb skipped (s_lead e) = true ->
      QString.toInt (value (s_attrs e) "id") = Some j ->
      j <> Z.of_nat (List.length (g_strings g)) ->
      read file
        (mkDevice true err
           (rootOpen lead attrs ++ flat_map groupTokens groups ++ groupOpen g
            ++ s_lead e ++ StartElement "string" (s_attrs e) :: more)) logger
      = Some (false, withGroups (withRoot file attrs) (map groupOf groups),
              error logger
                ("Strings in group " +++ QString.number (groupId g)
                 +++ " are not ordered properly"))).
Proof.
  intros Hl Hg. split.
  - intros trail post Ht. rewrite read_document.
    now rewrite (readFile_good file NoToken lead attrs groups trail post logger).
  - intros g e j more Hgs Hstr Hids Hel Hj Hne. rewrite read_document.
    destruct (restsOn_string_ok "group" (g_attrs g) (g_strings g)) as [R1 R2];
      [discriminate|].
    erewrite (readFile_in_group file NoToken lead attrs groups g _ logger 1);
      try assumption; try reflexivity.
    cbn [readGroup_loop].
    rewrite (readOpenTag_finds _ "string" logger (s_lead e) (s_attrs e) more); auto.
    cbn [attributes tokenType]. rewrite Hj, size_groupOf.
    apply Z.eqb_neq in Hne. rewrite Hne. cbn [negb]. rewrite order_message.
    reflexivity.
Qed.

Lemma read_string_ids_in_order_witness :
  read TextFile_new
    (doc ([StartElement "strings" []; StartElement "group" [("id", "4")]]
          ++ str "0" "a" ++ str "1" "b" ++ str "2" "c"
          ++ [EndElement "group"; EndElement "strings"])) []
  = Some (true, mkFile "" true [mkGroup 4 ["a"; "b"; "c"]], []) /\
  read TextFile_new
    (doc ([StartElement "strings" []; StartElement "group" [("id", "4")]]
          ++ str "0" "a" ++ str "1" "b" ++ str "3" "c"
          ++ [EndElement "group"; EndElement "strings"])) []
  = Some (false, TextFile_new, ["Strings in group 4 are not ordered properly"]).
Proof.
  split.
  - apply (proj1 (read_string_ids_in_order TextFile_new "" [StartDocument] []
                    [mkGroupElem [] [("id", "4")]
                       [mkStringElem [] [("id", "0")] [Characters "a"];
                        mkStringElem [] [("id", "1")] [Characters "b"];
                        mkStringElem [] [("id", "2")] [Characters "c"]] []]
                    [] eq_refl eq_refl) [] [EndDocument] eq_refl).
  - apply (proj2 (read_string_ids_in_order TextFile_new "" [StartDocument] [] [] []
                    eq_refl eq_refl)
             (mkGroupElem [] [("id", "4")]
                [mkStringElem [] [("id", "0")] [Characters "a"];
                 mkStringElem [] [("id", "1")] [Characters "b"]] [])
             (mkStringElem [] [("id", "3")] [])
             3
             [Characters "c"; EndElement "string"; EndElement "group";
              EndElement "strings"; EndDocument]
             eq_refl eq_refl eq_refl eq_refl eq_refl).
    discriminate.
Defined.

(** C10: in a document whose groups so far are well formed, a string
    element without [id] attribute makes [read] fail, and the message is
    the one for an [id] that is no integer, with the empty text for the
    value. *)
Theorem read_string_without_id file err lead attrs groups g e more logger :
  forallb skipped lead = true ->
  forallb goodGroup groups = true ->
  goodGroupStart g = true ->
  forallb goodString (g_strings g) = true ->
  stringIds 0 (g_strings g) = true ->
  forallb skipped (s_lead e) = true ->
  hasAttribute (s_attrs e) "id" = false ->
  read file
    (mkDevice true err
       (rootOpen lead attrs ++ flat_map groupTokens groups ++ groupOpen g
        ++ s_lead e ++ StartElement "string" (s_attrs e) :: more)) logger
  = Some (false, withGroups (withRoot file attrs) (map groupOf groups),
          error logger "String ID is not an integer: ").
Proof.
  intros Hl Hg Hgs Hstr Hids Hel Hno. rewrite read_document.
  destruct (restsOn_string_ok "group" (g_attrs g) (g_strings g)) as [R1 R2];
    [discriminate|].
  erewrite (readFile_in_group file NoToken lead attrs groups g _ logger 1);
    try assumption; try reflexivity.
  cbn [readGroup_loop].
  rewrite (readOpenTag_finds _ "string" logger (s_lead e) (s_attrs e) more); auto.
  cbn [attributes tokenType]. rewrite (value_absent _ _ Hno). reflexivity.
Qed.

Lemma read_string_without_id_witness :
  read TextFile_new
    (doc [StartElement "strings" [("name", "eng")]; StartElement "group" [("id", "4")];
          StartElement "string" [("key", "0")]; Characters "a"; EndElement "string";
          EndElement "group"; EndElement "strings"]) []
  = Some (false, mkFile "eng" true [], ["String ID is not an integer: "]).
Proof.
  apply (read_string_without_id TextFile_new "" [StartDocument] [("name", "eng")] []
           (mkGroupElem [] [("id", "4")] [] [])
           (mkStringElem [] [("key", "0")] [])
           [Characters "a"; EndElement "string"; EndElement "group";
            EndElement "strings"; EndDocument] []); reflexivity.
Defined.

Lemma toInt_in_int_range s v :
  QString.toInt s = Some v -> QString.in_int_range v = true.
Proof.
  unfold QString.toInt.
  destruct (match QString.trimmed s with
            | String "-" r => (true, r)
            | String "+" r => (false, r)
            | _ => (false, QString.trimmed s)
            end) as [negative digits].
  destruct digits as [|c r]; [discriminate|].
  destruct (NilEmpty.uint_of_string (String c r)) as [d|]; [|discriminate].
  destruct (QString.in_int_range (if negative then - Z.of_uint d else Z.of_uint d))
    eqn:E; [|discriminate].
  intros [= <-]. exact E.
Qed.

Lemma readGroup_loop_id fuel :
  forall gid xml group logger r xml' group' logger',
    readGroup_loop fuel gid xml group logger = Some (r, xml', group', logger') ->
    id group' = id group.
Proof.
  induction fuel as [|fuel IH]; intros gid xml group logger r xml' group' logger' H;
    simpl in H; [discriminate|].
  destruct (readOpenTag xml "string" logger) as [[found xml1] logger1].
  destruct found; [|now inversion H].
  destruct (QString.toInt (value (attributes xml1) "id")) as [textId|];
    [|now inversion H].
  destruct (negb (textId =? size group)); [now inversion H|].
  destruct (readElementText xml1) as [text xml2].
  destruct (readCloseTag xml2 "string" logger1) as [[closed xml3] logger3].
  apply IH in H. exact H.
Qed.

(** C9, as the code has it: a group element without [id] attribute makes
    [readGroup] fail with the message "Group does not have an ID
    attribute", one whose [id] is no integer makes it fail with the
    message that ends with the value, either failure makes the loop of
    [readFile] return false, and a group that [readGroup] accepts has for
    id the integer of the attribute, which fits an [int] and may be
    negative. *)
Theorem readGroup_id_attribute file xml logger :
  (hasAttribute (attributes xml) "id" = false ->
   readGroup file xml logger
   = Some (false, file, xml, error logger "Group does not have an ID attribute")) /\
  (hasAttribute (attributes xml) "id" = true ->
   QString.toInt (value (attributes xml) "id") = None ->
   readGroup file xml logger
   = Some (false, file, xml,
           error logger
             ("Group ID is not an integer: " +++ value (attributes xml) "id"))) /\
  (forall file' xml' logger',
      readGroup file xml logger = Some (true, file', xml', logger') ->
      exists gid strs,
        hasAttribute (attributes xml) "id" = true /\
        QString.toInt (value (attributes xml) "id") = Some gid /\
        QString.INT_MIN <= gid <= QString.INT_MAX /\
        file' = append_group file (mkGroup gid strs)) /\
  (forall fuel xml0 logger0 file' xml' logger',
      readOpenTag xml0 "group" logger0 = (true, xml, logger) ->
      readGroup file xml logger = Some (false, file', xml', logger') ->
      readFile_loop (S fuel) file xml0 logger0 = Some (false, file', xml', logger')).
Proof.
  repeat split.
  - intros H. unfold readGroup. now rewrite H.
  - intros H Hn. unfold readGroup. now rewrite H, Hn, group_id_message.
  - intros file' xml' logger' H. unfold readGroup in H.
    destruct (hasAttribute (attributes xml) "id"); [|discriminate]. cbn [negb] in H.
    destruct (QString.toInt (value (attributes xml) "id")) as [gid|] eqn:Ei;
      [|discriminate].
    destruct (readGroup_loop (budget xml) gid xml (TextGroup_new gid) logger)
      as [[[[r xml1] group] logger1]|] eqn:E; [|discriminate].
    destruct r; [|discriminate]. inversion H; subst.
    apply readGroup_loop_id in E. simpl in E.
    exists gid, (strings group). repeat split; auto.
    + apply toInt_in_int_range in Ei. unfold QString.in_int_range in Ei.
      apply andb_prop in Ei. lia.
    + apply toInt_in_int_range in Ei. unfold QString.in_int_range in Ei.
      apply andb_prop in Ei. lia.
    + destruct group. simpl in E. now subst.
  - intros fuel xml0 logger0 file' xml' logger' H0 H. simpl. now rewrite H0, H.
Qed.

Lemma readGroup_id_attribute_witness :
  readGroup TextFile_new (mkReader (StartElement "group" [("name", "x")]) []) []
  = Some (false, TextFile_new, mkReader (StartElement "group" [("name", "x")]) [],
          ["Group does not have an ID attribute"]) /\
  readGroup TextFile_new (mkReader (StartElement "group" [("id", "1.5")]) []) []
  = Some (false, TextFile_new, mkReader (StartElement "group" [("id", "1.5")]) [],
          ["Group ID is not an integer: 1.5"]) /\
  (exists gid strs,
      hasAttribute [("id", "12")] "id" = true /\
      QString.toInt (value [("id", "12")] "id") = Some gid /\
      QString.INT_MIN <= gid <= QString.INT_MAX /\
      mkFile "" true [mkGroup 12 []] = append_group TextFile_new (mkGroup gid strs)) /\
  readFile_loop 1 TextFile_new
    (mkReader (StartElement "strings" []) [StartElement "group" []]) []
  = Some (false, TextFile_new, mkReader (StartElement "group" []) [],
          ["Group does not have an ID attribute"]).
Proof.
  repeat apply conj.
  - apply (proj1 (readGroup_id_attribute TextFile_new
                    (mkReader (StartElement "group" [("name", "x")]) []) [])).
    reflexivity.
  - apply (proj1 (proj2 (readGroup_id_attribute TextFile_new
                           (mkReader (StartElement "group" [("id", "1.5")]) []) [])));
      reflexivity.
  - apply (proj1 (proj2 (proj2 (readGroup_id_attribute TextFile_new
                                  (mkReader (StartElement "group" [("id", "12")])
                                     [EndElement "group"]) [])))
             (mkFile "" true [mkGroup 12 []]) (mkReader (EndElement "group") []) []).
    reflexivity.
  - apply (proj2 (proj2 (proj2 (readGroup_id_attribute TextFile_new
                                  (mkReader (StartElement "group" []) []) [])))
             O (mkReader (StartElement "strings" []) [StartElement "group" []]) []);
      reflexivity.
Defined.

(** C9, as the spec has it, fails on the last point: the group element
    [<group id="-5"/>] is accepted, and the id of the group is negative. *)
Lemma readGroup_accepts_negative_id :
  readGroup TextFile_new
    (mkReader (StartElement "group" [("id", "-5")]) [EndElement "group"]) []
  = Some (true, mkFile "" true [mkGroup (-5) []], mkReader (EndElement "group") [], [])
  /\ id (mkGroup (-5) []) < 0.
Proof. split; reflexivity. Qed.

(** ** The document after read *)

(** What [readOpenTag] finds does not depend on the logger. *)
Lemma readOpenTag_loop_logger tag toks :
  forall cur logger1 logger2,
    fst (readOpenTag_loop tag cur toks logger1)
    = fst (readOpenTag_loop tag cur toks logger2).
Proof.
  induction toks as [|t r IH]; intros cur logger1 logger2; simpl.
  - destruct (ends cur); reflexivity.
  - destruct (ends cur); [reflexivity|].
    destruct t; try apply IH; try reflexivity.
    destruct (String.eqb name0 tag); reflexivity.
Qed.

Lemma readOpenTag_logger xml tag logger1 logger2 :
  fst (readOpenTag xml tag logger1) = fst (readOpenTag xml tag logger2).
Proof.
  unfold readOpenTag.
  destruct (isStartElement xml && String.eqb (name xml) tag); [reflexivity|].
  apply readOpenTag_loop_logger.
Qed.

Lemma readFile_loop_file fuel :
  forall file xml logger r file' xml' logger',
    readFile_loop fuel file xml logger = Some (r, file', xml', logger') ->
    exists groups, file' = withGroups file groups.
Proof.
  induction fuel as [|fuel IH]; intros file xml logger r file' xml' logger' H;
    simpl in H; [discriminate|].
  destruct (readOpenTag xml "group" logger) as [[found xml1] logger1].
  destruct found.
  2: { inversion H; subst. exists []. now rewrite withGroups_nil. }
  destruct (readGroup file xml1 logger1) as [[[[b file2] xml2] logger2]|] eqn:E;
    [|discriminate].
  apply readGroup_file in E. destruct E as (Hf & Ht & _).
  destruct b.
  - destruct (Ht eq_refl) as [g ->].
    destruct (readCloseTag xml2 "group" logger2) as [[closed xml3] logger3].
    destruct closed.
    + apply IH in H. destruct H as [gs ->]. exists (g :: gs).
      apply withGroups_append.
    + inversion H; subst. exists [g]. reflexivity.
  - inversion H; subst. rewrite (Hf eq_refl). exists [].
    now rewrite withGroups_nil.
Qed.

(** The document after [readFile]: as it was when the root element is not
    found; otherwise with name and flag from the attributes of the root
    element, and groups added after those it had. *)
Lemma readFile_document file xml logger r file' xml' logger' :
  readFile file xml logger = Some (r, file', xml', logger') ->
  match readOpenTag xml "strings" logger with
  | (false, _, _) => r = false /\ file' = file
  | (true, xml1, _) =>
      exists groups, file' = withGroups (withRoot file (attributes xml1)) groups
  end.
Proof.
  unfold readFile. intros H.
  destruct (readOpenTag xml "strings" logger) as [[found xml1] logger1].
  destruct found; cbn [negb] in H.
  - cbv zeta in H. rewrite (root_attributes file (attributes xml1)) in H.
    destruct (readFile_loop (budget xml1) (withRoot file (attributes xml1)) xml1 logger1)
      as [[[[b file3] xml3] logger3]|] eqn:E; [|discriminate].
    apply readFile_loop_file in E.
    destruct b.
    + destruct (readCloseTag xml3 "strings" logger3) as [[closed xml4] logger4].
      inversion H; subst. exact E.
    + inversion H; subst. exact E.
  - inversion H; subst. auto.
Qed.

Lemma read_document_after file device logger r file' logger' :
  read file device logger = Some (r, file', logger') ->
  (canOpen device = false -> r = false /\ file' = file) /\
  (canOpen device = true ->
   match rootAttributes device with
   | None => r = false /\ file' = file
   | Some attrs => exists groups, file' = withGroups (withRoot file attrs) groups
   end).
Proof.
  unfold read, rootAttributes. intros H. split; intros Hc; rewrite Hc in H;
    cbn [negb] in H.
  - inversion H; subst. auto.
  - destruct (readFile file (mkReader NoToken (document device)) logger)
      as [[[[b file1] xml1] logger1]|] eqn:E; [|discriminate].
    inversion H; subst. apply readFile_document in E.
    pose proof (readOpenTag_logger (mkReader NoToken (document device)) "strings"
                  logger []) as L.
    destruct (readOpenTag (mkReader NoToken (document device)) "strings" logger)
      as [[found xml2] logger2].
    destruct (readOpenTag (mkReader NoToken (document device)) "strings" [])
      as [[found' xml2'] logger2'].
    simpl in L. inversion L; subst. destruct found'; exact E.
Qed.

Lemma rootAttributes_found device logger xml1 logger1 :
  readOpenTag (mkReader NoToken (document device)) "strings" logger
  = (true, xml1, logger1) ->
  rootAttributes device = Some (attributes xml1).
Proof.
  intros H. unfold rootAttributes.
  pose proof (readOpenTag_logger (mkReader NoToken (document device)) "strings"
                logger []) as L.
  rewrite H in L.
  destruct (readOpenTag (mkReader NoToken (document device)) "strings" [])
    as [[found xml2] logger2].
  simpl in L. inversion L; subst. reflexivity.
Qed.

(** What [readGroup] does to the document does not depend on the
    document: when it returns false every document is left as it is, and
    when it returns true one group is appended, the same to every
    document. *)
Lemma readGroup_any_document file xml logger r file' xml' logger' :
  readGroup file xml logger = Some (r, file', xml', logger') ->
  (r = false ->
   file' = file /\
   forall f, readGroup f xml logger = Some (false, f, xml', logger')) /\
  (r = true ->
   exists group,
     file' = append_group file group /\
     forall f, readGroup f xml logger = Some (true, append_group f group, xml', logger')).
Proof.
  unfold readGroup. intros H.
  destruct (negb (hasAttribute (attributes xml) "id")).
  { inversion H; subst. split; [auto|discriminate]. }
  destruct (QString.toInt (value (attributes xml) "id")) as [gid|].
  2: { inversion H; subst. split; [auto|discriminate]. }
  destruct (readGroup_loop (budget xml) gid xml (TextGroup_new gid) logger)
    as [[[[r1 xml1] group] logger1]|]; [|discriminate].
  destruct r1; inversion H; subst; split; try discriminate; eauto.
Qed.

(** The document after the loop of [readFile]: the groups of its rounds
    after the groups it had. *)
Lemma readFile_loop_rounds fuel :
  forall file xml logger r file' xml' logger',
    readFile_loop fuel file xml logger = Some (r, file', xml', logger') ->
    exists groups, rounds xml logger groups /\ file' = withGroups file groups.
Proof.
  induction fuel as [|fuel IH]; intros file xml logger r file' xml' logger' H;
    simpl in H; [discriminate|].
  destruct (readOpenTag xml "group" logger) as [[found xml1] logger1] eqn:E.
  destruct found.
  2: { inversion H; subst. exists []. split; [eapply rounds_end; eauto|].
       now rewrite withGroups_nil. }
  destruct (readGroup file xml1 logger1) as [[[[b file2] xml2] logger2]|] eqn:E2;
    [|discriminate].
  apply readGroup_any_document in E2. destruct E2 as [Hf Ht].
  destruct b.
  - destruct (Ht eq_refl) as (g & -> & Hg).
    destruct (readCloseTag xml2 "group" logger2) as [[closed xml3] logger3] eqn:E3.
    destruct closed.
    + apply IH in H. destruct H as (gs & Hr & ->). exists (g :: gs).
      split; [eapply rounds_next; eauto|apply withGroups_append].
    + inversion H; subst. exists [g].
      split; [eapply rounds_close_fails; eauto|reflexivity].
  - destruct (Hf eq_refl) as [-> Hg]. inversion H; subst. exists [].
    split; [eapply rounds_group_fails; eauto|now rewrite withGroups_nil].
Qed.

(** The groups of the rounds are fixed by the reader and the logger the
    loop starts from. *)
Lemma rounds_unique xml logger groups :
  rounds xml logger groups ->
  forall groups', rounds xml logger groups' -> groups' = groups.
Proof.
  induction 1 as [xml logger xml1 logger1 E
                 |xml logger xml1 logger1 xml2 logger2 E G
                 |xml logger xml1 logger1 group xml2 logger2 xml3 logger3 E G C
                 |xml logger xml1 logger1 group xml2 logger2 xml3 logger3 groups
                    E G C R IH];
    intros groups' H'; inversion H' as [? ? ? ? E'|? ? ? ? ? ? E' G'
                                       |? ? ? ? ? ? ? ? ? E' G' C'
                                       |? ? ? ? ? ? ? ? ? ? E' G' C' R']; subst;
    rewrite E in E'; inversion E'; subst; try reflexivity;
    specialize (G TextFile_new); specialize (G' TextFile_new);
    rewrite G in G'; inversion G'; subst; try reflexivity;
    rewrite C in C'; inversion C'; subst; try reflexivity.
  f_equal. apply IH. exact R'.
Qed.

Lemma readFile_rounds file xml logger r file' xml' logger' xml1 logger1 :
  readFile file xml logger = Some (r, file', xml', logger') ->
  readOpenTag xml "strings" logger = (true, xml1, logger1) ->
  exists groups,
    rounds xml1 logger1 groups /\
    file' = withGroups (withRoot file (attributes xml1)) groups.
Proof.
  unfold readFile. intros H E. rewrite E in H. cbn [negb] in H. cbv zeta in H.
  rewrite (root_attributes file (attributes xml1)) in H.
  destruct (readFile_loop (budget xml1) (withRoot file (attributes xml1)) xml1 logger1)
    as [[[[b file3] xml3] logger3]|] eqn:E3; [|discriminate].
  apply readFile_loop_rounds in E3.
  destruct b.
  - destruct (readCloseTag xml3 "strings" logger3) as [[closed xml4] logger4].
    inversion H; subst. exact E3.
  - inversion H; subst. exact E3.
Qed.

(** C5, as the code has it: when [read] fails because the device does not
    open or the root element is not found, the document is as it was;
    when it fails later, the document has the name and the flag of the
    root attributes that are there, and after the groups it had, the
    groups of the rounds of the loop in which [readGroup] returned true
    before the failure, in order and no others (the reader and the logger
    after the root start element fix them); and whenever [readGroup]
    returns false the document is as it was before that call, so that the
    group in which it fails is not appended. *)
Theorem read_failure_document file device logger file' logger' :
  read file device logger = Some (false, file', logger') ->
  (canOpen device = false \/ rootAttributes device = None -> file' = file) /\
  (forall attrs,
      canOpen device = true -> rootAttributes device = Some attrs ->
      exists xml1 logger1 groups,
        readOpenTag (mkReader NoToken (document device)) "strings" logger
        = (true, xml1, logger1) /\
        attributes xml1 = attrs /\
        rounds xml1 logger1 groups /\
        (forall groups', rounds xml1 logger1 groups' -> groups' = groups) /\
        file' = withGroups (withRoot file attrs) groups) /\
  (forall f xml l f' xml' l',
      readGroup f xml l = Some (false, f', xml', l') -> f' = f).
Proof.
  intros H. split; [|split].
  - apply read_document_after in H. destruct H as [H1 H2].
    intros [Hc|Hr].
    + now apply H1.
    + destruct (canOpen device); [|now apply H1].
      specialize (H2 eq_refl). rewrite Hr in H2. tauto.
  - intros attrs Hc Hr. unfold read in H. rewrite Hc in H. cbn [negb] in H.
    destruct (readFile file (mkReader NoToken (document device)) logger)
      as [[[[r1 file1] xml1] logger1]|] eqn:E; [|discriminate].
    inversion H; subst.
    destruct (readOpenTag (mkReader NoToken (document device)) "strings" logger)
      as [[found xml2] logger2] eqn:E0.
    destruct found.
    + pose proof (rootAttributes_found _ _ _ _ E0) as Hroot.
      rewrite Hr in Hroot. inversion Hroot; subst.
      destruct (readFile_rounds _ _ _ _ _ _ _ _ _ E E0) as (groups & Hrounds & ->).
      exists xml2, logger2, groups.
      repeat split; auto. apply rounds_unique. exact Hrounds.
    + exfalso. unfold rootAttributes in Hr.
      pose proof (readOpenTag_logger (mkReader NoToken (document device)) "strings"
                    logger []) as L.
      rewrite E0 in L.
      destruct (readOpenTag (mkReader NoToken (document device)) "strings" [])
        as [[found' xml2'] logger2'].
      simpl in L. inversion L; subst. discriminate Hr.
  - intros f xml l f' xml' l' Hg.
    apply readGroup_any_document in Hg. destruct Hg as [Hg _].
    now destruct (Hg eq_refl).
Qed.

Lemma read_failure_document_witness :
  (mkFile "old" false [mkGroup 1 ["z"]] = mkFile "old" false [mkGroup 1 ["z"]]) /\
  (exists xml1 logger1 groups,
      readOpenTag
        (mkReader NoToken
           (document
              (doc ([StartElement "strings" [("name", "x")];
                     StartElement "group" [("id", "7")]] ++ str "0" "a"
                    ++ [EndElement "group"; StartElement "group" []]))))
        "strings" []
      = (true, xml1, logger1) /\
      attributes xml1 = [("name", "x")] /\
      rounds xml1 logger1 groups /\
      (forall groups', rounds xml1 logger1 groups' -> groups' = groups) /\
      mkFile "x" false [mkGroup 1 ["z"]; mkGroup 7 ["a"]]
      = withGroups
          (withRoot (mkFile "old" false [mkGroup 1 ["z"]]) [("name", "x")]) groups) /\
  mkFile "old" false [mkGroup 1 ["z"]] = mkFile "old" false [mkGroup 1 ["z"]].
Proof.
  split; [|split].
  - apply (proj1 (read_failure_document (mkFile "old" false [mkGroup 1 ["z"]])
                    (doc [StartElement "foo" []; EndElement "foo"]) []
                    (mkFile "old" false [mkGroup 1 ["z"]])
                    ["Invalid XML: expected tag <strings>, got <foo>";
                     "Unable to find root <strings> element"] eq_refl)).
    right. reflexivity.
  - apply (proj1 (proj2 (read_failure_document (mkFile "old" false [mkGroup 1 ["z"]])
                    (doc ([StartElement "strings" [("name", "x")];
                           StartElement "group" [("id", "7")]] ++ str "0" "a"
                          ++ [EndElement "group"; StartElement "group" []]))
                    []
                    (mkFile "x" false [mkGroup 1 ["z"]; mkGroup 7 ["a"]])
                    ["Group does not have an ID attribute"] eq_refl))
             [("name", "x")]); reflexivity.
  - apply (proj2 (proj2 (read_failure_document (mkFile "old" false [mkGroup 1 ["z"]])
                    (doc [StartElement "foo" []; EndElement "foo"]) []
                    (mkFile "old" false [mkGroup 1 ["z"]])
                    ["Invalid XML: expected tag <strings>, got <foo>";
                     "Unable to find root <strings> element"] eq_refl))
             (mkFile "old" false [mkGroup 1 ["z"]])
             (mkReader (StartElement "group" [("id", "x")]) []) []
             (mkFile "old" false [mkGroup 1 ["z"]])
             (mkReader (StartElement "group" [("id", "x")]) [])
             ["Group ID is not an integer: x"]).
    reflexivity.
Defined.

(** C5, as the spec has it, fails: [read] returns false on a document
    whose second group has no [id], and the document it was given, new
    before, has the name, the flag and the first group of the input. *)
Lemma read_failure_leaves_partial_document :
  read TextFile_new
    (doc ([StartElement "strings" [("name", "x"); ("indexWithCounts", "false")];
           StartElement "group" [("id", "7")]] ++ str "0" "a"
          ++ [EndElement "group"; StartElement "group" []; EndElement "group";
              EndElement "strings"])) []
  = Some (false, mkFile "x" false [mkGroup 7 ["a"]],
          ["Group does not have an ID attribute"])
  /\ mkFile "x" false [mkGroup 7 ["a"]] <> TextFile_new.
Proof. split; [reflexivity|discriminate]. Qed.

(** C7: the flag of a document read into a [TextFile] whose flag is true
    before, as that of a new one is, is false when the root element has
    the attribute [indexWithCounts] with the value "false", and true in
    every other case: the attribute absent, or with another value. *)
Theorem read_indexWithCounts file device logger file' logger' :
  m_indexWithCounts file = true ->
  read file device logger = Some (true, file', logger') ->
  exists attrs,
    rootAttributes device = Some attrs /\
    (m_indexWithCounts file' = false <->
     hasAttribute attrs "indexWithCounts" = true /\
     value attrs "indexWithCounts" = "false") /\
    (m_indexWithCounts file' = true <->
     hasAttribute attrs "indexWithCounts" = false \/
     value attrs "indexWithCounts" <> "false").
Proof.
  intros Hflag H. apply read_document_after in H. destruct H as [H1 H2].
  destruct (canOpen device); [|destruct (H1 eq_refl); discriminate].
  specialize (H2 eq_refl).
  destruct (rootAttributes device) as [attrs|]; [|destruct H2; discriminate].
  exists attrs. split; [reflexivity|]. destruct H2 as [groups ->].
  unfold withGroups, withRoot. cbn [m_indexWithCounts]. rewrite Hflag.
  destruct (hasAttribute attrs "indexWithCounts").
  - destruct (String.eqb (value attrs "indexWithCounts") "false") eqn:E; simpl.
    + apply String.eqb_eq in E. split; split; auto; try discriminate.
      intros [?|?]; [discriminate|contradiction].
    + apply String.eqb_neq in E. split; split; auto; try discriminate.
      intros [_ ?]; contradiction.
  - split; split; auto; try discriminate. intros [? _]; discriminate.
Qed.

Lemma read_indexWithCounts_witness :
  exists attrs,
    rootAttributes
      (doc [StartElement "strings" [("indexWithCounts", "False")];
            StartElement "group" [("id", "0")]; EndElement "group";
            EndElement "strings"]) = Some attrs /\
    (m_indexWithCounts (mkFile "" true [mkGroup 0 []]) = false <->
     hasAttribute attrs "indexWithCounts" = true /\
     value attrs "indexWithCounts" = "false") /\
    (m_indexWithCounts (mkFile "" true [mkGroup 0 []]) = true <->
     hasAttribute attrs "indexWithCounts" = false \/
     value attrs "indexWithCounts" <> "false").
Proof.
  apply (read_indexWithCounts TextFile_new
           (doc [StartElement "strings" [("indexWithCounts", "False")];
                 StartElement "group" [("id", "0")]; EndElement "group";
                 EndElement "strings"]) [] (mkFile "" true [mkGroup 0 []]) []);
    reflexivity.
Defined.

(** ** What is written is read back *)

Ltac list_normal :=
  repeat (rewrite <- app_assoc || rewrite app_nil_l || rewrite <- app_comm_cons);
  rewrite ?app_nil_r.

Lemma writtenStrings_cons index s rest :
  writtenStrings index (s :: rest)
  = mkStringElem [indent 2] [("id", QString.number index)] (textTokens s)
    :: writtenStrings (index + 1) rest.
Proof. reflexivity. Qed.

(** The operations of the writer on a writer that formats. *)
Lemma writeStartElement_mk n toks open stack last :
  writeStartElement n (mkWriter toks open stack last true)
  = mkWriter (toks ++ flush open ++ [indent (List.length stack)])
      (Some (n, [])) (n :: stack) true true.
Proof.
  unfold writeStartElement, finishStartElement, emit.
  destruct open as [[m attrs]|]; cbn -[indent]; rewrite <- ?app_assoc; reflexivity.
Qed.

Lemma writeAttribute_mk key val toks n attrs stack last format :
  writeAttribute key val (mkWriter toks (Some (n, attrs)) stack last format)
  = mkWriter toks (Some (n, attrs ++ [(key, val)])) stack last format.
Proof. reflexivity. Qed.

Lemma writeCharacters_mk text toks open stack last format :
  writeCharacters text (mkWriter toks open stack last format)
  = mkWriter (toks ++ flush open ++ textTokens text) None stack last format.
Proof.
  unfold writeCharacters, finishStartElement, emit.
  destruct open as [[m attrs]|]; destruct text; cbn;
    rewrite <- ?app_assoc; rewrite ?app_nil_r; reflexivity.
Qed.

Lemma writeEndElement_mk toks open n stack last :
  writeEndElement (mkWriter toks open (n :: stack) last true)
  = mkWriter
      (toks ++ flush open
       ++ (if last then [] else [indent (List.length stack)]) ++ [EndElement n])
      None stack false true.
Proof.
  unfold writeEndElement, finishStartElement, emit.
  destruct open as [[m attrs]|]; destruct last; cbn -[indent];
    rewrite <- ?app_assoc; reflexivity.
Qed.

Lemma writeGroup_loop_written strs :
  forall index toks open last,
    writeGroup_loop strs index (mkWriter toks open ["group"; "strings"] last true)
    = match strs with
      | [] => mkWriter toks open ["group"; "strings"] last true
      | _ =>
          mkWriter
            (toks ++ flush open ++ flat_map stringTokens (writtenStrings index strs))
            None ["group"; "strings"] false true
      end.
Proof.
  induction strs as [|s rest IH]; intros index toks open last; [reflexivity|].
  cbn [writeGroup_loop].
  rewrite writeStartElement_mk, writeAttribute_mk, writeCharacters_mk,
    writeEndElement_mk, IH.
  rewrite (writtenStrings_cons index s rest). cbn [flat_map].
  destruct rest as [|s0 rest].
  - cbn [writtenStrings flat_map]. unfold stringTokens.
    cbn [s_lead s_attrs s_body List.length flush]. list_normal. reflexivity.
  - generalize (flat_map stringTokens (writtenStrings (index + 1) (s0 :: rest))).
    intros following. unfold stringTokens.
    cbn [s_lead s_attrs s_body List.length flush]. list_normal. reflexivity.
Qed.

Lemma writeGroup_written g toks open last :
  writeGroup g (mkWriter toks open ["strings"] last true)
  = mkWriter (toks ++ flush open ++ groupTokens (writtenGroup g))
      None ["strings"] false true.
Proof.
  unfold writeGroup.
  rewrite writeStartElement_mk, writeAttribute_mk, writeGroup_loop_written.
  unfold groupTokens, groupOpen, writtenGroup. cbn [g_lead g_attrs g_strings g_trail].
  destruct (strings g) as [|s rest].
  - rewrite writeEndElement_mk. cbn [writtenStrings flat_map closing flush List.length].
    list_normal. reflexivity.
  - generalize (flat_map stringTokens (writtenStrings 0 (s :: rest))).
    intros inside. rewrite writeEndElement_mk. cbn [closing flush List.length].
    list_normal. reflexivity.
Qed.

Lemma write_loop_written groups :
  forall toks open last,
    write_loop groups (mkWriter toks open ["strings"] last true)
    = match groups with
      | [] => mkWriter toks open ["strings"] last true
      | _ =>
          mkWriter
            (toks ++ flush open ++ flat_map groupTokens (map writtenGroup groups))
            None ["strings"] false true
      end.
Proof.
  induction groups as [|g rest IH]; intros toks open last; [reflexivity|].
  cbn [write_loop]. rewrite writeGroup_written, IH.
  change (flat_map groupTokens (map writtenGroup (g :: rest)))
    with (groupTokens (writtenGroup g) ++ flat_map groupTokens (map writtenGroup rest)).
  generalize (groupTokens (writtenGroup g)). intros first.
  destruct rest as [|g0 rest].
  - cbn [map flat_map]. list_normal. reflexivity.
  - generalize (flat_map groupTokens (map writtenGroup (g0 :: rest))).
    intros following. cbn [flush]. list_normal. reflexivity.
Qed.

(** [write] on a device that opens writes the formatted document. *)
Lemma write_written file device logger :
  canOpen device = true ->
  write file device logger
  = (true, mkDevice true (deviceErrorString device) (writtenDocument file), logger).
Proof.
  intros Hc. unfold write. rewrite Hc. cbn [negb].
  change (writeStartDocument (setAutoFormatting true newWriter))
    with (mkWriter [StartDocument] None [] false true).
  rewrite writeStartElement_mk, !writeAttribute_mk, write_loop_written.
  unfold writtenDocument, rootOpen, writtenRoot, writeEndDocument.
  destruct (m_groups file) as [|g rest].
  - rewrite writeEndElement_mk. unfold emit.
    cbn [closing flush List.length tagStack closeOpenElements autoFormatting written
         inStartElement lastWasStartElement map flat_map].
    list_normal. reflexivity.
  - generalize (flat_map groupTokens (map writtenGroup (g :: rest))).
    intros inside. rewrite writeEndElement_mk. unfold emit.
    cbn [closing flush List.length tagStack closeOpenElements autoFormatting written
         inStartElement lastWasStartElement].
    list_normal. reflexivity.
Qed.

Lemma elementText_textTokens s : elementText (textTokens s) = s.
Proof. destruct s; [reflexivity|]. simpl. now rewrite append_nil_r. Qed.

Lemma textual_textTokens s : forallb textual (textTokens s) = true.
Proof. destruct s; reflexivity. Qed.

Lemma writtenStrings_good strs :
  forall index, forallb goodString (writtenStrings index strs) = true.
Proof.
  induction strs as [|s r IH]; intros index; [reflexivity|].
  cbn [writtenStrings forallb]. rewrite IH.
  unfold goodString. cbn [s_lead s_body]. now rewrite textual_textTokens.
Qed.

Lemma writtenStrings_text strs :
  forall index,
    map (fun e => elementText (s_body e)) (writtenStrings index strs) = strs.
Proof.
  induction strs as [|s r IH]; intros index; [reflexivity|].
  cbn [writtenStrings map s_body]. now rewrite IH, elementText_textTokens.
Qed.

Lemma writtenStrings_ids strs :
  forall index,
    0 <= index ->
    index + Z.of_nat (List.length strs) <= QString.INT_MAX + 1 ->
    stringIds index (writtenStrings index strs) = true.
Proof.
  induction strs as [|s r IH]; intros index H0 Hm; [reflexivity|].
  cbn [writtenStrings stringIds s_attrs value]. cbn [List.length] in Hm.
  rewrite String.eqb_refl.
  rewrite toInt_number.
  - rewrite Z.eqb_refl. apply IH; lia.
  - unfold QString.in_int_range, QString.INT_MIN, QString.INT_MAX in *.
    apply andb_true_intro. split; apply Z.leb_le; lia.
Qed.

Lemma writtenGroup_good g :
  wellFormedGroup g = true -> goodGroup (writtenGroup g) = true.
Proof.
  unfold wellFormedGroup. intros H. apply andb_prop in H. destruct H as [Hi Hn].
  apply Z.leb_le in Hn.
  unfold goodGroup, goodGroupStart, writtenGroup.
  cbn [g_lead g_attrs g_strings g_trail hasAttribute existsb fst value].
  rewrite String.eqb_refl, (toInt_number _ Hi), writtenStrings_good.
  rewrite writtenStrings_ids by lia.
  destruct (strings g); reflexivity.
Qed.

Lemma groupOf_writtenGroup g :
  wellFormedGroup g = true -> groupOf (writtenGroup g) = g.
Proof.
  unfold wellFormedGroup. intros H. apply andb_prop in H. destruct H as [Hi _].
  unfold groupOf, groupId, writtenGroup. cbn [g_attrs g_strings value].
  rewrite String.eqb_refl, (toInt_number _ Hi), writtenStrings_text.
  now destruct g.
Qed.

Lemma writtenGroups_good groups :
  forallb wellFormedGroup groups = true ->
  forallb goodGroup (map writtenGroup groups) = true /\
  map groupOf (map writtenGroup groups) = groups.
Proof.
  induction groups as [|g r IH]; intros H; [split; reflexivity|].
  simpl in H. apply andb_prop in H. destruct H as [Hg Hr].
  destruct (IH Hr) as [IH1 IH2]. cbn [map forallb].
  now rewrite (writtenGroup_good _ Hg), IH1, (groupOf_writtenGroup _ Hg), IH2.
Qed.

Lemma withRoot_written target file :
  m_groups target = [] ->
  withGroups (withRoot target (writtenRoot file)) (m_groups file) = file.
Proof.
  intros H. destruct file as [n [|] groups]; unfold withGroups, withRoot;
    cbn; rewrite H; reflexivity.
Qed.

Lemma closing_skipped {A} level (children : list A) :
  forallb skipped (closing level children) = true.
Proof. destruct children; reflexivity. Qed.

(** The formatted document of a well-formed [TextFile] is read into a
    [TextFile] without groups as that document, with no message. *)
Lemma read_written file target err logger :
  wellFormed file = true ->
  m_groups target = [] ->
  read target (mkDevice true err (writtenDocument file)) logger
  = Some (true, file, logger).
Proof.
  intros Hw Ht. destruct (writtenGroups_good _ Hw) as [Hg Hm].
  rewrite read_document. unfold writtenDocument.
  change [EndElement "strings"; Characters newline; EndDocument]
    with (EndElement "strings" :: [Characters newline; EndDocument]).
  rewrite (readFile_good target NoToken [StartDocument; indent 0]
             (writtenRoot file) (map writtenGroup (m_groups file))
             (closing 0 (m_groups file)) [Characters newline; EndDocument] logger);
    try reflexivity; try assumption.
  - now rewrite Hm, (withRoot_written target file Ht).
  - apply closing_skipped.
Qed.

(** C3: a document whose ids and numbers of strings fit an [int], written
    by [write] to a device that opens and read by [read] from that device
    into a [TextFile] that has no groups yet, as a new one, is read as it
    was: same name, same flag, same groups with the same ids and the same
    strings in the same order.  Both calls return true and give the logger
    nothing.  The white space of the formatting is in the document as
    character data between the elements. *)
Theorem write_read_round_trip file device target logger logger' :
  wellFormed file = true ->
  canOpen device = true ->
  m_groups target = [] ->
  exists device',
    write file device logger = (true, device', logger) /\
    read target device' logger' = Some (true, file, logger').
Proof.
  intros Hw Hc Ht. eexists. split.
  - apply write_written. exact Hc.
  - apply read_written; assumption.
Qed.

Lemma write_read_round_trip_witness :
  exists device',
    write sampleFile (mkDevice true "" []) [] = (true, device', []) /\
    read TextFile_new device' [] = Some (true, sampleFile, []).
Proof.
  apply (write_read_round_trip sampleFile (mkDevice true "" []) TextFile_new [] []);
    reflexivity.
Defined.

(** * Further properties *)

(** ** The logger *)

Lemma readOpenTag_loop_logs tag toks :
  forall cur logger r xml' logger',
    readOpenTag_loop tag cur toks logger = (r, xml', logger') ->
    (r = true -> logger' = logger) /\
    (logger' = logger \/ exists message, logger' = error logger message).
Proof.
  induction toks as [|t rest IH]; intros cur logger r xml' logger' H; simpl in H.
  - destruct (ends cur); inversion H; subst; split; try discriminate; eauto.
  - destruct (ends cur).
    { inversion H; subst; split; try discriminate; eauto. }
    destruct t; try (apply IH in H; exact H);
      try solve [inversion H; subst; split; try discriminate; eauto].
    destruct (String.eqb name0 tag); inversion H; subst; split;
      try discriminate; eauto.
Qed.

Lemma readOpenTag_logs xml tag logger r xml' logger' :
  readOpenTag xml tag logger = (r, xml', logger') ->
  (r = true -> logger' = logger) /\
  (logger' = logger \/ exists message, logger' = error logger message).
Proof.
  unfold readOpenTag. intros H.
  destruct (isStartElement xml && String.eqb (name xml) tag).
  - inversion H; subst. auto.
  - apply readOpenTag_loop_logs in H. exact H.
Qed.

Lemma readCloseTag_loop_logs tag toks :
  forall cur logger r xml' logger',
    readCloseTag_loop tag cur toks logger = (r, xml', logger') ->
    (r = true -> logger' = logger) /\
    (r = false ->
     atEnd xml' = true /\
     logger' = error logger ("Invalid XML: end element </" +++ tag +++ "> not found")).
Proof.
  induction toks as [|t rest IH]; intros cur logger r xml' logger' H; simpl in H;
    rewrite missing_close_message in H.
  - destruct (ends cur) eqn:E; inversion H; subst; split; try discriminate; auto.
  - destruct (ends cur) eqn:E.
    { inversion H; subst; split; try discriminate; auto. }
    destruct t; try (apply IH in H; exact H).
    destruct (String.eqb name0 tag); [|apply IH in H; exact H].
    inversion H; subst; split; try discriminate; auto.
Qed.

Lemma readCloseTag_logs xml tag logger r xml' logger' :
  readCloseTag xml tag logger = (r, xml', logger') ->
  (r = true -> logger' = logger) /\
  (r = false ->
   atEnd xml' = true /\
   logger' = error logger ("Invalid XML: end element </" +++ tag +++ "> not found")).
Proof.
  unfold readCloseTag. intros H.
  destruct (isEndElement xml && String.eqb (name xml) tag).
  - inversion H; subst. split; [auto|discriminate].
  - destruct xml as [cur toks]. apply readCloseTag_loop_logs in H. exact H.
Qed.

(** The messages a call adds: the logger afterwards is the logger before
    with [added] at its end. *)
Lemma grows_refl (logger : Logger) : logger = logger ++ [].
Proof. now rewrite app_nil_r. Qed.

Lemma readOpenTag_grows xml tag logger r xml' logger' :
  readOpenTag xml tag logger = (r, xml', logger') ->
  exists added, logger' = logger ++ added.
Proof.
  intros H. apply readOpenTag_logs in H. destruct H as [_ [->|[m ->]]].
  - exists []. apply grows_refl.
  - exists [m]. reflexivity.
Qed.

Lemma readCloseTag_grows xml tag logger r xml' logger' :
  readCloseTag xml tag logger = (r, xml', logger') ->
  exists added, logger' = logger ++ added /\ (r = false -> added <> []).
Proof.
  intros H. apply readCloseTag_logs in H. destruct H as [Ht Hf]. destruct r.
  - rewrite (Ht eq_refl). exists []. split; [apply grows_refl|discriminate].
  - destruct (Hf eq_refl) as [_ ->]. eexists [_]. split; [reflexivity|discriminate].
Qed.

Lemma grows_error logger added message :
  exists added', error (logger ++ added) message = logger ++ added' /\ added' <> [].
Proof.
  exists (added ++ [message]). unfold error. rewrite app_assoc. split; [reflexivity|].
  destruct added; discriminate.
Qed.

Lemma readGroup_loop_grows fuel :
  forall gid xml group logger r xml' group' logger',
    readGroup_loop fuel gid xml group logger = Some (r, xml', group', logger') ->
    exists added, logger' = logger ++ added /\ (r = false -> added <> []).
Proof.
  induction fuel as [|fuel IH]; intros gid xml group logger r xml' group' logger' H;
    simpl in H; [discriminate|].
  destruct (readOpenTag xml "string" logger) as [[found xml1] logger1] eqn:E.
  apply readOpenTag_grows in E. destruct E as [a1 ->].
  destruct found.
  2: { inversion H; subst. exists a1. split; [reflexivity|discriminate]. }
  destruct (QString.toInt (value (attributes xml1) "id")) as [textId|].
  2: { inversion H; subst. destruct (grows_error logger a1
         (QString.arg "String ID is not an integer: %1" (value (attributes xml') "id")))
         as (a & Ha & Hn). exists a. rewrite Ha. auto. }
  destruct (negb (textId =? size group)).
  { inversion H; subst. destruct (grows_error logger a1
      (QString.arg "Strings in group %1 are not ordered properly" (QString.number gid)))
      as (a & Ha & Hn). exists a. rewrite Ha. auto. }
  destruct (readElementText xml1) as [text xml2].
  destruct (readCloseTag xml2 "string" (logger ++ a1)) as [[closed xml3] logger3] eqn:E3.
  apply readCloseTag_grows in E3. destruct E3 as (a3 & -> & _).
  apply IH in H. destruct H as (a & -> & Hn).
  exists (a1 ++ a3 ++ a). rewrite <- !app_assoc. split; [reflexivity|].
  intros Hr. specialize (Hn Hr). destruct a; [congruence|].
  destruct a1; [destruct a3|]; discriminate.
Qed.

Lemma readGroup_grows file xml logger r file' xml' logger' :
  readGroup file xml logger = Some (r, file', xml', logger') ->
  exists added, logger' = logger ++ added /\ (r = false -> added <> []).
Proof.
  unfold readGroup. intros H.
  destruct (negb (hasAttribute (attributes xml) "id")).
  { inversion H; subst. exists ["Group does not have an ID attribute"].
    split; [reflexivity|discriminate]. }
  destruct (QString.toInt (value (attributes xml) "id")) as [gid|].
  2: { inversion H; subst. eexists [_]. split; [reflexivity|discriminate]. }
  destruct (readGroup_loop (budget xml) gid xml (TextGroup_new gid) logger)
    as [[[[r1 xml1] group] logger1]|] eqn:E; [|discriminate].
  apply readGroup_loop_grows in E. destruct E as (a & -> & Hn).
  destruct r1; inversion H; subst; exists a; auto.
Qed.

Lemma readFile_loop_grows fuel :
  forall file xml logger r file' xml' logger',
    readFile_loop fuel file xml logger = Some (r, file', xml', logger') ->
    exists added, logger' = logger ++ added /\ (r = false -> added <> []).
Proof.
  induction fuel as [|fuel IH]; intros file xml logger r file' xml' logger' H;
    simpl in H; [discriminate|].
  destruct (readOpenTag xml "group" logger) as [[found xml1] logger1] eqn:E.
  apply readOpenTag_grows in E. destruct E as [a1 ->].
  destruct found.
  2: { inversion H; subst. exists a1. split; [reflexivity|discriminate]. }
  destruct (readGroup file xml1 (logger ++ a1)) as [[[[b file2] xml2] logger2]|] eqn:E2;
    [|discriminate].
  apply readGroup_grows in E2. destruct E2 as (a2 & -> & Hn2).
  destruct b.
  - destruct (readCloseTag xml2 "group" ((logger ++ a1) ++ a2))
      as [[closed xml3] logger3] eqn:E3.
    apply readCloseTag_grows in E3. destruct E3 as (a3 & -> & Hn3).
    destruct closed.
    + apply IH in H. destruct H as (a & -> & Hn).
      exists (a1 ++ a2 ++ a3 ++ a). rewrite <- !app_assoc. split; [reflexivity|].
      intros Hr. specialize (Hn Hr). destruct a; [congruence|].
      destruct a1; [destruct a2; [destruct a3|]|]; discriminate.
    + inversion H; subst. exists (a1 ++ a2 ++ a3). rewrite <- !app_assoc.
      split; [reflexivity|]. intros _. specialize (Hn3 eq_refl).
      destruct a3; [congruence|]. destruct a1; [destruct a2|]; discriminate.
  - inversion H; subst. exists (a1 ++ a2). rewrite <- !app_assoc.
    split; [reflexivity|]. intros _. specialize (Hn2 eq_refl).
    destruct a2; [congruence|]. destruct a1; discriminate.
Qed.

Lemma readFile_grows file xml logger r file' xml' logger' :
  readFile file xml logger = Some (r, file', xml', logger') ->
  exists added, logger' = logger ++ added /\ (r = false -> added <> []).
Proof.
  unfold readFile. intros H.
  destruct (readOpenTag xml "strings" logger) as [[found xml1] logger1] eqn:E.
  apply readOpenTag_grows in E. destruct E as [a1 ->].
  destruct found; cbn [negb] in H.
  2: { inversion H; subst.
       destruct (grows_error logger a1 "Unable to find root <strings> element")
         as (a & Ha & Hn). exists a. rewrite Ha. auto. }
  cbv zeta in H.
  match type of H with
  | context [readFile_loop ?f ?a ?b ?c] =>
      destruct (readFile_loop f a b c) as [[[[b3 file3] xml3] logger3]|] eqn:E3;
        [|discriminate]
  end.
  apply readFile_loop_grows in E3. destruct E3 as (a3 & -> & Hn3).
  destruct b3.
  - destruct (readCloseTag xml3 "strings" ((logger ++ a1) ++ a3))
      as [[closed xml4] logger4] eqn:E4.
    apply readCloseTag_grows in E4. destruct E4 as (a4 & -> & Hn4).
    inversion H; subst. exists (a1 ++ a3 ++ a4). rewrite <- !app_assoc.
    split; [reflexivity|]. intros Hr. specialize (Hn4 Hr).
    destruct a4; [congruence|]. destruct a1; [destruct a3|]; discriminate.
  - inversion H; subst. exists (a1 ++ a3). rewrite <- !app_assoc.
    split; [reflexivity|]. intros _. specialize (Hn3 eq_refl).
    destruct a3; [congruence|]. destruct a1; discriminate.
Qed.

(** X1: [read] only adds to the logger, and it never fails silently: the
    logger afterwards is the logger before followed by the messages of the
    call, and when [read] returns false there is at least one of them. *)
Theorem read_failure_is_logged file device logger r file' logger' :
  read file device logger = Some (r, file', logger') ->
  exists added, logger' = logger ++ added /\ (r = false -> added <> []).
Proof.
  unfold read. intros H. destruct (negb (canOpen device)).
  { inversion H; subst. eexists [_]. split; [reflexivity|discriminate]. }
  destruct (readFile file (mkReader NoToken (document device)) logger)
    as [[[[r1 file1] xml1] logger1]|] eqn:E; [|discriminate].
  inversion H; subst. apply readFile_grows in E. exact E.
Qed.

Lemma read_failure_is_logged_witness :
  exists added,
    ["before"; "Invalid XML: %s"; "Unable to find root <strings> element"]
    = ["before"] ++ added /\ (false = false -> added <> []).
Proof.
  apply (read_failure_is_logged TextFile_new (mkDevice true "" []) ["before"] false
           TextFile_new
           ["before"; "Invalid XML: %s"; "Unable to find root <strings> element"]).
  reflexivity.
Defined.

(** ** Where the reader stands *)

Lemma advances_refl xml : advances xml xml.
Proof. split; auto. Qed.

Lemma advances_ended xml xml' : atEnd xml' = true -> advances xml xml'.
Proof. split; auto. Qed.

Lemma advances_trans a b c : advances a b -> advances b c -> advances a c.
Proof.
  intros [A1 A2] [B1 B2]. split; [auto|].
  destruct A2 as [->|[Hb|[c1 E1]]]; [exact B2|auto|].
  destruct B2 as [->|[Hc|[c2 E2]]]; [eauto|auto|].
  right. right. exists (c1 ++ tokenType b :: c2).
  rewrite E1, E2, <- app_assoc. reflexivity.
Qed.

Lemma advances_step cur t rest xml' :
  ends cur = false ->
  advances (mkReader t rest) xml' -> advances (mkReader cur (t :: rest)) xml'.
Proof.
  intros Hc [_ H]. split.
  - unfold atEnd. simpl. congruence.
  - destruct H as [->|[H|[consumed E]]]; [|auto|].
    + right. right. exists []. reflexivity.
    + right. right. exists (t :: consumed). simpl in *. now rewrite E.
Qed.

Lemma advances_next cur t rest :
  ends cur = false -> advances (mkReader cur (t :: rest)) (mkReader t rest).
Proof. intros H. apply advances_step; [exact H|apply advances_refl]. Qed.

Lemma readOpenTag_loop_advances tag toks :
  forall cur logger r xml' logger',
    readOpenTag_loop tag cur toks logger = (r, xml', logger') ->
    advances (mkReader cur toks) xml'.
Proof.
  induction toks as [|t rest IH]; intros cur logger r xml' logger' H; simpl in H.
  - destruct (ends cur); inversion H; subst;
      [apply advances_refl|now apply advances_ended].
  - destruct (ends cur) eqn:E.
    { inversion H; subst. apply advances_refl. }
    destruct t;
      try (apply IH in H; apply advances_step; assumption);
      try solve [inversion H; subst; now apply advances_next].
    destruct (String.eqb name0 tag); inversion H; subst; now apply advances_next.
Qed.

Lemma readOpenTag_advances xml tag logger r xml' logger' :
  readOpenTag xml tag logger = (r, xml', logger') -> advances xml xml'.
Proof.
  unfold readOpenTag. intros H.
  destruct (isStartElement xml && String.eqb (name xml) tag).
  - inversion H; subst. apply advances_refl.
  - destruct xml as [cur toks]. apply readOpenTag_loop_advances in H. exact H.
Qed.

Lemma readCloseTag_loop_advances tag toks :
  forall cur logger r xml' logger',
    readCloseTag_loop tag cur toks logger = (r, xml', logger') ->
    advances (mkReader cur toks) xml'.
Proof.
  induction toks as [|t rest IH]; intros cur logger r xml' logger' H; simpl in H.
  - destruct (ends cur); inversion H; subst;
      [apply advances_refl|now apply advances_ended].
  - destruct (ends cur) eqn:E.
    { inversion H; subst. apply advances_refl. }
    destruct t; try (apply IH in H; apply advances_step; assumption).
    destruct (String.eqb name0 tag).
    + inversion H; subst. now apply advances_next.
    + apply IH in H. apply advances_step; assumption.
Qed.

Lemma readCloseTag_advances xml tag logger r xml' logger' :
  readCloseTag xml tag logger = (r, xml', logger') -> advances xml xml'.
Proof.
  unfold readCloseTag. intros H.
  destruct (isEndElement xml && String.eqb (name xml) tag).
  - inversion H; subst. apply advances_refl.
  - destruct xml as [cur toks]. apply readCloseTag_loop_advances in H. exact H.
Qed.

Lemma readElementText_loop_advances toks :
  forall cur result text xml',
    ends cur = false ->
    readElementText_loop result toks = (text, xml') ->
    advances (mkReader cur toks) xml'.
Proof.
  induction toks as [|t rest IH]; intros cur result text xml' Hc H; simpl in H.
  - inversion H; subst. now apply advances_ended.
  - destruct t;
      try solve [inversion H; subst; now apply advances_ended];
      try solve [inversion H; subst; now apply advances_next];
      match goal with
      | |- advances (mkReader _ (?T :: _)) _ =>
          apply (IH T) in H; [apply advances_step; assumption|reflexivity]
      end.
Qed.

Lemma readElementText_advances xml text xml' :
  readElementText xml = (text, xml') -> advances xml xml'.
Proof.
  unfold readElementText. intros H. destruct (isStartElement xml) eqn:E.
  - destruct xml as [cur toks]. apply (readElementText_loop_advances toks cur) in H;
      [exact H|]. unfold isStartElement in E. simpl in E. now destruct cur.
  - inversion H; subst. apply advances_refl.
Qed.

Lemma readGroup_loop_advances fuel :
  forall gid xml group logger r xml' group' logger',
    readGroup_loop fuel gid xml group logger = Some (r, xml', group', logger') ->
    advances xml xml'.
Proof.
  induction fuel as [|fuel IH]; intros gid xml group logger r xml' group' logger' H;
    simpl in H; [discriminate|].
  destruct (readOpenTag xml "string" logger) as [[found xml1] logger1] eqn:E.
  apply readOpenTag_advances in E.
  destruct found; [|inversion H; subst; exact E].
  destruct (QString.toInt (value (attributes xml1) "id")) as [textId|];
    [|inversion H; subst; exact E].
  destruct (negb (textId =? size group)); [inversion H; subst; exact E|].
  destruct (readElementText xml1) as [text xml2] eqn:E2.
  apply readElementText_advances in E2.
  destruct (readCloseTag xml2 "string" logger1) as [[closed xml3] logger3] eqn:E3.
  apply readCloseTag_advances in E3. apply IH in H.
  eauto using advances_trans.
Qed.

Lemma readGroup_advances file xml logger r file' xml' logger' :
  readGroup file xml logger = Some (r, file', xml', logger') -> advances xml xml'.
Proof.
  unfold readGroup. intros H.
  destruct (negb (hasAttribute (attributes xml) "id")).
  { inversion H; subst. apply advances_refl. }
  destruct (QString.toInt (value (attributes xml) "id")) as [gid|].
  2: { inversion H; subst. apply advances_refl. }
  destruct (readGroup_loop (budget xml) gid xml (TextGroup_new gid) logger)
    as [[[[r1 xml1] group] logger1]|] eqn:E; [|discriminate].
  apply readGroup_loop_advances in E. destruct r1; inversion H; subst; exact E.
Qed.

Lemma readFile_loop_advances fuel :
  forall file xml logger r file' xml' logger',
    readFile_loop fuel file xml logger = Some (r, file', xml', logger') ->
    advances xml xml'.
Proof.
  induction fuel as [|fuel IH]; intros file xml logger r file' xml' logger' H;
    simpl in H; [discriminate|].
  destruct (readOpenTag xml "group" logger) as [[found xml1] logger1] eqn:E.
  apply readOpenTag_advances in E.
  destruct found; [|inversion H; subst; exact E].
  destruct (readGroup file xml1 logger1) as [[[[b file2] xml2] logger2]|] eqn:E2;
    [|discriminate].
  apply readGroup_advances in E2.
  destruct b; [|inversion H; subst; eauto using advances_trans].
  destruct (readCloseTag xml2 "group" logger2) as [[closed xml3] logger3] eqn:E3.
  apply readCloseTag_advances in E3.
  destruct closed.
  - apply IH in H. eauto using advances_trans.
  - inversion H; subst. eauto using advances_trans.
Qed.

(** What [readFile] has done when it returns true: found the root start
    element, gone through the loop, and found the root end element. *)
Lemma readFile_success file xml logger file' xml' logger' :
  readFile file xml logger = Some (true, file', xml', logger') ->
  exists xml1 logger1,
    readOpenTag xml "strings" logger = (true, xml1, logger1) /\
    advances xml1 xml' /\ tokenType xml' = EndElement "strings".
Proof.
  unfold readFile. intros H.
  destruct (readOpenTag xml "strings" logger) as [[found xml1] logger1] eqn:E.
  destruct found; cbn [negb] in H; [|discriminate].
  exists xml1, logger1. split; [reflexivity|]. cbv zeta in H.
  match type of H with
  | context [readFile_loop ?f ?a ?b ?c] =>
      destruct (readFile_loop f a b c) as [[[[b3 file3] xml3] logger3]|] eqn:E3;
        [|discriminate]
  end.
  apply readFile_loop_advances in E3. destruct b3; [|discriminate].
  destruct (readCloseTag xml3 "strings" logger3) as [[closed xml4] logger4] eqn:E4.
  inversion H; subst.
  pose proof (readCloseTag_advances _ _ _ _ _ _ E4) as A4.
  apply readCloseTag_progress in E4. destruct E4 as [_ E4].
  split; [eauto using advances_trans|auto].
Qed.

(** X2: [read] returns true only on a document that has the root start
    element and, somewhere after it, the root end element: a document cut
    before [</strings>] is never accepted.  The start element is the one
    whose attributes are read. *)
Theorem read_success_has_root file device logger file' logger' :
  read file device logger = Some (true, file', logger') ->
  exists before attrs inside after,
    document device
    = before ++ StartElement "strings" attrs :: inside
        ++ EndElement "strings" :: after /\
    rootAttributes device = Some attrs.
Proof.
  unfold read. intros H. destruct (negb (canOpen device)); [discriminate|].
  destruct (readFile file (mkReader NoToken (document device)) logger)
    as [[[[r1 file1] xml1] logger1]|] eqn:E; [|discriminate].
  inversion H; subst.
  apply readFile_success in E. destruct E as (xml2 & logger2 & E & A & Hend).
  pose proof (readOpenTag_advances _ _ _ _ _ _ E) as A0.
  pose proof (rootAttributes_found _ _ _ _ E) as Hroot.
  apply readOpenTag_progress in E. destruct E as [_ E].
  destruct (E eq_refl) as [Hs Hn].
  unfold isStartElement, name in Hs, Hn. unfold attributes in Hroot.
  destruct (tokenType xml2) as [| | | |n attrs| | | | | |] eqn:T2; try discriminate.
  subst n.
  destruct A0 as [_ [->|[Ha|[before Eb]]]].
  - discriminate T2.
  - unfold atEnd in Ha. rewrite T2 in Ha. discriminate.
  - destruct A as [_ [->|[Ha|[inside Ei]]]].
    + rewrite T2 in Hend. discriminate.
    + unfold atEnd in Ha. rewrite Hend in Ha. discriminate.
    + exists before, attrs, inside, (pending xml1). simpl in Eb.
      rewrite Eb, T2, Ei, Hend. auto.
Qed.

Lemma read_success_has_root_witness :
  exists before attrs inside after,
    document
      (doc [Comment; StartElement "strings" [("name", "x")];
            StartElement "group" [("id", "1")]; EndElement "group";
            EndElement "strings"; Comment])
    = before ++ StartElement "strings" attrs :: inside
        ++ EndElement "strings" :: after /\
    rootAttributes
      (doc [Comment; StartElement "strings" [("name", "x")];
            StartElement "group" [("id", "1")]; EndElement "group";
            EndElement "strings"; Comment]) = Some attrs.
Proof.
  apply (read_success_has_root TextFile_new
           (doc [Comment; StartElement "strings" [("name", "x")];
                 StartElement "group" [("id", "1")]; EndElement "group";
                 EndElement "strings"; Comment]) []
           (mkFile "x" true [mkGroup 1 []]) []).
  reflexivity.
Defined.

(** X3: a document without a start element named [strings] is refused:
    [read] returns false, leaves the document it was given as it was, and
    the last message is that the root element was not found. *)
Theorem read_without_root file device logger :
  canOpen device = true ->
  (forall attrs, ~ In (StartElement "strings" attrs) (document device)) ->
  exists earlier,
    read file device logger
    = Some (false, file, earlier ++ ["Unable to find root <strings> element"]).
Proof.
  intros Hc Hno. unfold read, readFile. rewrite Hc. cbn [negb].
  destruct (readOpenTag (mkReader NoToken (document device)) "strings" logger)
    as [[found xml1] logger1] eqn:E.
  destruct found; cbn [negb]; [|exists logger1; reflexivity].
  exfalso.
  pose proof (readOpenTag_advances _ _ _ _ _ _ E) as [_ A].
  apply readOpenTag_progress in E. destruct E as [_ E].
  destruct (E eq_refl) as [Hs Hn]. unfold isStartElement, name in Hs, Hn.
  destruct (tokenType xml1) as [| | | |n attrs| | | | | |] eqn:T; try discriminate.
  subst n. destruct A as [->|[Ha|[before Eb]]].
  - discriminate T.
  - unfold atEnd in Ha. rewrite T in Ha. discriminate.
  - simpl in Eb. apply (Hno attrs). rewrite Eb, ?T. apply in_elt.
Qed.

Lemma read_without_root_witness :
  exists earlier,
    read (mkFile "old" false [mkGroup 1 ["z"]])
      (doc [StartElement "foo" []; EndElement "foo"]) []
    = Some (false, mkFile "old" false [mkGroup 1 ["z"]],
            earlier ++ ["Unable to find root <strings> element"]).
Proof.
  apply (read_without_root (mkFile "old" false [mkGroup 1 ["z"]])
           (doc [StartElement "foo" []; EndElement "foo"]) []).
  - reflexivity.
  - intros attrs H. simpl in H.
    repeat (destruct H as [H|H]; [discriminate H|]). exact H.
Defined.

(** ** Tokens that are not read do not matter *)

Lemma advances_not_ended a b : advances a b -> atEnd b = false -> atEnd a = false.
Proof.
  intros [H _] Hb. destruct (atEnd a); [|reflexivity].
  rewrite (H eq_refl) in Hb. discriminate.
Qed.

Lemma readOpenTag_loop_frame tag toks :
  forall cur logger r xml' logger' more,
    readOpenTag_loop tag cur toks logger = (r, xml', logger') ->
    atEnd xml' = false ->
    readOpenTag_loop tag cur (toks ++ more) logger = (r, extend xml' more, logger').
Proof.
  induction toks as [|t rest IH]; intros cur logger r xml' logger' more H Ha;
    simpl in H.
  - destruct (ends cur) eqn:E; inversion H; subst; unfold atEnd in Ha; simpl in Ha;
      congruence.
  - destruct (ends cur) eqn:E.
    { inversion H; subst. unfold atEnd in Ha. simpl in Ha. congruence. }
    destruct t; simpl; rewrite E; try (apply IH; assumption);
      try solve [inversion H; subst; reflexivity];
      try solve [inversion H; subst; discriminate Ha].
    match goal with
    | |- context [String.eqb ?n tag] => destruct (String.eqb n tag)
    end; inversion H; subst; reflexivity.
Qed.

Lemma readOpenTag_frame xml tag logger r xml' logger' more :
  readOpenTag xml tag logger = (r, xml', logger') ->
  atEnd xml' = false ->
  readOpenTag (extend xml more) tag logger = (r, extend xml' more, logger').
Proof.
  unfold readOpenTag. intros H Ha.
  change (isStartElement (extend xml more)) with (isStartElement xml).
  change (name (extend xml more)) with (name xml).
  destruct (isStartElement xml && String.eqb (name xml) tag).
  - inversion H; subst. reflexivity.
  - apply readOpenTag_loop_frame; assumption.
Qed.

Lemma readCloseTag_loop_frame tag toks :
  forall cur logger r xml' logger' more,
    readCloseTag_loop tag cur toks logger = (r, xml', logger') ->
    atEnd xml' = false ->
    readCloseTag_loop tag cur (toks ++ more) logger = (r, extend xml' more, logger').
Proof.
  induction toks as [|t rest IH]; intros cur logger r xml' logger' more H Ha;
    simpl in H.
  - destruct (ends cur) eqn:E; inversion H; subst; unfold atEnd in Ha; simpl in Ha;
      congruence.
  - destruct (ends cur) eqn:E.
    { inversion H; subst. unfold atEnd in Ha. simpl in Ha. congruence. }
    destruct t; simpl; rewrite E; try (apply IH; assumption).
    match goal with
    | |- context [String.eqb ?n tag] => destruct (String.eqb n tag)
    end; [|apply IH; assumption].
    inversion H; subst. reflexivity.
Qed.

Lemma readCloseTag_frame xml tag logger r xml' logger' more :
  readCloseTag xml tag logger = (r, xml', logger') ->
  atEnd xml' = false ->
  readCloseTag (extend xml more) tag logger = (r, extend xml' more, logger').
Proof.
  unfold readCloseTag. intros H Ha.
  change (isEndElement (extend xml more)) with (isEndElement xml).
  change (name (extend xml more)) with (name xml).
  destruct (isEndElement xml && String.eqb (name xml) tag).
  - inversion H; subst. reflexivity.
  - apply readCloseTag_loop_frame; assumption.
Qed.

Lemma readElementText_loop_frame toks :
  forall result text xml' more,
    readElementText_loop result toks = (text, xml') ->
    atEnd xml' = false ->
    readElementText_loop result (toks ++ more) = (text, extend xml' more).
Proof.
  induction toks as [|t rest IH]; intros result text xml' more H Ha; simpl in H.
  - inversion H; subst. discriminate Ha.
  - destruct t; simpl; try (apply IH; assumption);
      try solve [inversion H; subst; reflexivity];
      try solve [inversion H; subst; discriminate Ha].
Qed.

Lemma readElementText_frame xml text xml' more :
  readElementText xml = (text, xml') ->
  atEnd xml' = false ->
  readElementText (extend xml more) = (text, extend xml' more).
Proof.
  unfold readElementText. intros H Ha.
  change (isStartElement (extend xml more)) with (isStartElement xml).
  destruct (isStartElement xml).
  - apply readElementText_loop_frame; assumption.
  - inversion H; subst. reflexivity.
Qed.

Lemma readGroup_loop_frame fuel :
  forall gid xml group logger r xml' group' logger' more,
    readGroup_loop fuel gid xml group logger = Some (r, xml', group', logger') ->
    atEnd xml' = false ->
    readGroup_loop fuel gid (extend xml more) group logger
    = Some (r, extend xml' more, group', logger').
Proof.
  induction fuel as [|fuel IH];
    intros gid xml group logger r xml' group' logger' more H Ha;
    simpl in H; [discriminate|].
  cbn [readGroup_loop].
  destruct (readOpenTag xml "string" logger) as [[found xml1] logger1] eqn:E.
  assert (A1 : atEnd xml1 = false).
  { destruct found; [|inversion H; subst; exact Ha].
    destruct (QString.toInt (value (attributes xml1) "id")) as [textId|];
      [|inversion H; subst; exact Ha].
    destruct (negb (textId =? size group)); [inversion H; subst; exact Ha|].
    destruct (readElementText xml1) as [text xml2] eqn:E2.
    destruct (readCloseTag xml2 "string" logger1) as [[closed xml3] logger3] eqn:E3.
    apply readElementText_advances in E2. apply readCloseTag_advances in E3.
    apply readGroup_loop_advances in H.
    eauto using advances_not_ended. }
  rewrite (readOpenTag_frame _ _ _ _ _ _ more E A1).
  change (attributes (extend xml1 more)) with (attributes xml1).
  destruct found; [|inversion H; subst; reflexivity].
  destruct (QString.toInt (value (attributes xml1) "id")) as [textId|];
    [|inversion H; subst; reflexivity].
  destruct (negb (textId =? size group)); [inversion H; subst; reflexivity|].
  destruct (readElementText xml1) as [text xml2] eqn:E2.
  destruct (readCloseTag xml2 "string" logger1) as [[closed xml3] logger3] eqn:E3.
  assert (A3 : atEnd xml3 = false)
    by (apply readGroup_loop_advances in H; eauto using advances_not_ended).
  assert (A2 : atEnd xml2 = false)
    by (apply readCloseTag_advances in E3; eauto using advances_not_ended).
  rewrite (readElementText_frame _ _ _ more E2 A2).
  rewrite (readCloseTag_frame _ _ _ _ _ _ more E3 A3).
  apply IH; assumption.
Qed.

Lemma readGroup_frame file xml logger r file' xml' logger' more :
  readGroup file xml logger = Some (r, file', xml', logger') ->
  atEnd xml' = false ->
  readGroup file (extend xml more) logger = Some (r, file', extend xml' more, logger').
Proof.
  unfold readGroup. intros H Ha.
  change (attributes (extend xml more)) with (attributes xml).
  destruct (negb (hasAttribute (attributes xml) "id")).
  { inversion H; subst. reflexivity. }
  destruct (QString.toInt (value (attributes xml) "id")) as [gid|].
  2: { inversion H; subst. reflexivity. }
  destruct (readGroup_loop (budget xml) gid xml (TextGroup_new gid) logger)
    as [[[[r1 xml1] group] logger1]|] eqn:E; [|discriminate].
  assert (A1 : atEnd xml1 = false) by (destruct r1; inversion H; subst; exact Ha).
  apply (readGroup_loop_frame _ _ _ _ _ _ _ _ _ more) in E; [|exact A1].
  apply readGroup_loop_budget in E. rewrite E.
  destruct r1; inversion H; subst; reflexivity.
Qed.

Lemma readFile_loop_frame fuel :
  forall file xml logger r file' xml' logger' more,
    readFile_loop fuel file xml logger = Some (r, file', xml', logger') ->
    atEnd xml' = false ->
    readFile_loop fuel file (extend xml more) logger
    = Some (r, file', extend xml' more, logger').
Proof.
  induction fuel as [|fuel IH]; intros file xml logger r file' xml' logger' more H Ha;
    simpl in H; [discriminate|].
  cbn [readFile_loop].
  destruct (readOpenTag xml "group" logger) as [[found xml1] logger1] eqn:E.
  destruct found.
  2: { inversion H; subst. now rewrite (readOpenTag_frame _ _ _ _ _ _ more E Ha). }
  destruct (readGroup file xml1 logger1) as [[[[b file2] xml2] logger2]|] eqn:E2;
    [|discriminate].
  assert (A2 : atEnd xml2 = false).
  { destruct b; [|inversion H; subst; exact Ha].
    destruct (readCloseTag xml2 "group" logger2) as [[closed xml3] logger3] eqn:E3.
    apply readCloseTag_advances in E3.
    destruct closed.
    - apply readFile_loop_advances in H. eauto using advances_not_ended.
    - inversion H; subst. eauto using advances_not_ended. }
  assert (A1 : atEnd xml1 = false)
    by (apply readGroup_advances in E2; eauto using advances_not_ended).
  rewrite (readOpenTag_frame _ _ _ _ _ _ more E A1).
  rewrite (readGroup_frame _ _ _ _ _ _ _ more E2 A2).
  destruct b; [|inversion H; subst; reflexivity].
  destruct (readCloseTag xml2 "group" logger2) as [[closed xml3] logger3] eqn:E3.
  assert (A3 : atEnd xml3 = false).
  { destruct closed; [|inversion H; subst; exact Ha].
    apply readFile_loop_advances in H. eauto using advances_not_ended. }
  rewrite (readCloseTag_frame _ _ _ _ _ _ more E3 A3).
  destruct closed; [|inversion H; subst; reflexivity].
  apply IH; assumption.
Qed.

Lemma readFile_frame file xml logger r file' xml' logger' more :
  readFile file xml logger = Some (r, file', xml', logger') ->
  atEnd xml' = false ->
  readFile file (extend xml more) logger = Some (r, file', extend xml' more, logger').
Proof.
  unfold readFile. intros H Ha.
  destruct (readOpenTag xml "strings" logger) as [[found xml1] logger1] eqn:E.
  destruct found; cbn [negb] in H.
  2: { inversion H; subst. now rewrite (readOpenTag_frame _ _ _ _ _ _ more E Ha). }
  cbv zeta in H. rewrite (root_attributes file (attributes xml1)) in H.
  destruct (readFile_loop (budget xml1) (withRoot file (attributes xml1)) xml1 logger1)
    as [[[[b3 file3] xml3] logger3]|] eqn:E3; [|discriminate].
  assert (A3 : atEnd xml3 = false).
  { destruct b3; [|inversion H; subst; exact Ha].
    destruct (readCloseTag xml3 "strings" logger3) as [[closed xml4] logger4] eqn:E4.
    inversion H; subst. apply readCloseTag_advances in E4.
    eauto using advances_not_ended. }
  assert (A1 : atEnd xml1 = false)
    by (apply readFile_loop_advances in E3; eauto using advances_not_ended).
  rewrite (readOpenTag_frame _ _ _ _ _ _ more E A1). cbn [negb]. cbv zeta.
  change (attributes (extend xml1 more)) with (attributes xml1).
  rewrite (root_attributes file (attributes xml1)).
  apply (readFile_loop_frame _ _ _ _ _ _ _ _ more) in E3; [|exact A3].
  apply readFile_loop_budget in E3. rewrite E3.
  destruct b3; [|inversion H; subst; reflexivity].
  destruct (readCloseTag xml3 "strings" logger3) as [[closed xml4] logger4] eqn:E4.
  inversion H; subst.
  now rewrite (readCloseTag_frame _ _ _ _ _ _ more E4 Ha).
Qed.

(** X4: [read] does not look at what comes after the root end element it
    stops on: when it returns true on a document, it returns true, with
    the same document read and the same messages, on that document
    followed by any further tokens. *)
Theorem read_ignores_what_follows file device logger file' logger' more :
  read file device logger = Some (true, file', logger') ->
  read file
    (mkDevice (canOpen device) (deviceErrorString device) (document device ++ more))
    logger
  = Some (true, file', logger').
Proof.
  unfold read. cbn [canOpen document]. intros H.
  destruct (negb (canOpen device)); [discriminate|].
  destruct (readFile file (mkReader NoToken (document device)) logger)
    as [[[[r1 file1] xml1] logger1]|] eqn:E; [|discriminate].
  inversion H; subst.
  pose proof (readFile_success _ _ _ _ _ _ E) as (_ & _ & _ & _ & Hend).
  assert (Ha : atEnd xml1 = false) by (unfold atEnd; now rewrite Hend).
  apply (readFile_frame _ _ _ _ _ _ _ more) in E; [|exact Ha].
  unfold extend in E. cbn [tokenType pending] in E. now rewrite E.
Qed.

Lemma read_ignores_what_follows_witness :
  read TextFile_new
    (mkDevice true ""
       ([StartDocument; StartElement "strings" []; StartElement "group" [("id", "1")];
         EndElement "group"; EndElement "strings"]
        ++ [StartElement "strings" []; Invalid "junk"])) []
  = Some (true, mkFile "" true [mkGroup 1 []], []).
Proof.
  apply (read_ignores_what_follows TextFile_new
           (mkDevice true ""
              [StartDocument; StartElement "strings" [];
               StartElement "group" [("id", "1")]; EndElement "group";
               EndElement "strings"])
           [] (mkFile "" true [mkGroup 1 []]) []
           [StartElement "strings" []; Invalid "junk"]).
  reflexivity.
Defined.

(** ** What the tag matcher leaves behind *)

Lemma readOpenTag_loop_failure tag toks :
  forall cur logger xml' logger',
    readOpenTag_loop tag cur toks logger = (false, xml', logger') ->
    atEnd xml' = true \/ isEndElement xml' = true \/
    (isStartElement xml' = true /\ name xml' <> tag).
Proof.
  induction toks as [|t rest IH]; intros cur logger xml' logger' H; simpl in H.
  - destruct (ends cur) eqn:E; inversion H; subst; auto.
  - destruct (ends cur) eqn:E.
    { inversion H; subst. auto. }
    destruct t; try (apply IH in H; exact H);
      try solve [inversion H; subst; auto].
    destruct (String.eqb name0 tag) eqn:En; [discriminate|].
    inversion H; subst. apply String.eqb_neq in En. auto.
Qed.

Lemma at_end_not_on_start xml tag : atEnd xml = true -> onStart xml tag = false.
Proof.
  unfold atEnd, onStart, isStartElement. now destruct (tokenType xml).
Qed.

Lemma at_end_not_on_end xml tag : atEnd xml = true -> onEnd xml tag = false.
Proof.
  unfold atEnd, onEnd, isEndElement. now destruct (tokenType xml).
Qed.

(** X5: what [readOpenTag] leaves behind.  When it returns true the
    reader stands on a start element of the name asked for, nothing was
    logged, and asking again changes nothing.  When it returns false the
    reader is at its end, or stands on an end element, or stands on a
    start element of another name: it never stops on a token it skips. *)
Theorem readOpenTag_result xml tag logger r xml' logger' :
  readOpenTag xml tag logger = (r, xml', logger') ->
  (r = true ->
   onStart xml' tag = true /\ logger' = logger /\
   forall logger2, readOpenTag xml' tag logger2 = (true, xml', logger2)) /\
  (r = false ->
   atEnd xml' = true \/ isEndElement xml' = true \/
   (isStartElement xml' = true /\ name xml' <> tag)).
Proof.
  intros H. split; intros ->.
  - pose proof (readOpenTag_logs _ _ _ _ _ _ H) as [L _].
    apply readOpenTag_progress in H. destruct H as [_ H].
    destruct (H eq_refl) as [Hs Hn].
    assert (Ho : onStart xml' tag = true)
      by (unfold onStart; rewrite Hs, Hn; apply String.eqb_refl).
    repeat split; auto.
    intros logger2. now apply readOpenTag_on_start.
  - unfold readOpenTag in H.
    destruct (isStartElement xml && String.eqb (name xml) tag); [discriminate|].
    apply readOpenTag_loop_failure in H. exact H.
Qed.

Lemma readOpenTag_result_witness :
  (onStart (mkReader (StartElement "group" []) [EndElement "group"]) "group" = true /\
   @nil string = [] /\
   forall logger2,
     readOpenTag (mkReader (StartElement "group" []) [EndElement "group"]) "group"
       logger2
     = (true, mkReader (StartElement "group" []) [EndElement "group"], logger2)) /\
  (atEnd (mkReader (StartElement "b" []) []) = true \/
   isEndElement (mkReader (StartElement "b" []) []) = true \/
   (isStartElement (mkReader (StartElement "b" []) []) = true /\
    name (mkReader (StartElement "b" []) []) <> "string")).
Proof.
  split.
  - apply (proj1 (readOpenTag_result
                    (mkReader (StartElement "strings" [])
                       [Characters " "; StartElement "group" []; EndElement "group"])
                    "group" [] true
                    (mkReader (StartElement "group" []) [EndElement "group"]) []
                    eq_refl)).
    reflexivity.
  - apply (proj2 (readOpenTag_result
                    (mkReader (StartElement "group" []) [Comment; StartElement "b" []])
                    "string" [] false (mkReader (StartElement "b" []) [])
                    ["Invalid XML: expected tag <string>, got <b>"] eq_refl)).
    reflexivity.
Defined.

(** X6: what [readCloseTag] leaves behind.  When it returns true the
    reader stands on the end element asked for, nothing was logged, and
    asking again changes nothing.  When it returns false the reader is at
    its end and one message was logged; from there every further
    [readCloseTag] and [readOpenTag] fails with its message for the end of
    the stream and leaves the reader where it is. *)
Theorem readCloseTag_result xml tag logger r xml' logger' :
  readCloseTag xml tag logger = (r, xml', logger') ->
  (r = true ->
   onEnd xml' tag = true /\ logger' = logger /\
   forall logger2, readCloseTag xml' tag logger2 = (true, xml', logger2)) /\
  (r = false ->
   atEnd xml' = true /\
   logger' = error logger ("Invalid XML: end element </" +++ tag +++ "> not found") /\
   forall tag2 logger2,
     readCloseTag xml' tag2 logger2
     = (false, xml',
        error logger2 ("Invalid XML: end element </" +++ tag2 +++ "> not found")) /\
     readOpenTag xml' tag2 logger2
     = (false, xml', error logger2 "Invalid XML: unexpected end of file")).
Proof.
  intros H. split; intros ->.
  - pose proof (readCloseTag_logs _ _ _ _ _ _ H) as [L _].
    apply readCloseTag_progress in H. destruct H as [_ H]. specialize (H eq_refl).
    assert (Ho : onEnd xml' tag = true)
      by (unfold onEnd, isEndElement, name; rewrite H; apply String.eqb_refl).
    repeat split; auto.
    intros logger2. now apply readCloseTag_on_end.
  - apply readCloseTag_logs in H. destruct H as [_ H].
    destruct (H eq_refl) as [Ha ->]. repeat split; auto.
    + unfold readCloseTag. fold (onEnd xml' tag2).
      rewrite (at_end_not_on_end _ _ Ha), <- missing_close_message.
      rewrite (readCloseTag_loop_at_end _ _ _ _ Ha). now destruct xml'.
    + unfold readOpenTag. fold (onStart xml' tag2).
      rewrite (at_end_not_on_start _ _ Ha).
      rewrite (readOpenTag_loop_at_end _ _ _ _ Ha). now destruct xml'.
Qed.

Lemma readCloseTag_result_witness :
  (onEnd (mkReader (EndElement "group") []) "group" = true /\
   @nil string = [] /\
   forall logger2,
     readCloseTag (mkReader (EndElement "group") []) "group" logger2
     = (true, mkReader (EndElement "group") [], logger2)) /\
  (atEnd (mkReader EndDocument []) = true /\
   ["Invalid XML: end element </group> not found"]
   = error [] ("Invalid XML: end element </" +++ "group" +++ "> not found") /\
   forall tag2 logger2,
     readCloseTag (mkReader EndDocument []) tag2 logger2
     = (false, mkReader EndDocument [],
        error logger2 ("Invalid XML: end element </" +++ tag2 +++ "> not found")) /\
     readOpenTag (mkReader EndDocument []) tag2 logger2
     = (false, mkReader EndDocument [],
        error logger2 "Invalid XML: unexpected end of file")).
Proof.
  split.
  - apply (proj1 (readCloseTag_result
                    (mkReader (StartElement "group" [])
                       [EndElement "string"; EndElement "group"])
                    "group" [] true (mkReader (EndElement "group") []) [] eq_refl)).
    reflexivity.
  - apply (proj2 (readCloseTag_result
                    (mkReader (StartElement "group" []) [EndElement "string"; EndDocument])
                    "group" [] false (mkReader EndDocument [])
                    ["Invalid XML: end element </group> not found"] eq_refl)).
    reflexivity.
Defined.

(** ** Name, flag and groups of the document read *)

(** X7: once the root start element is found, the name and the flag of
    the document are those of its attributes [name] and [indexWithCounts]
    when they are there, and those the document had before when they are
    not, whether [read] then returns true or false: [read] does not reset
    the document it is given. *)
Theorem read_root_attributes file device logger r file' logger' attrs :
  read file device logger = Some (r, file', logger') ->
  canOpen device = true ->
  rootAttributes device = Some attrs ->
  m_name file'
  = (if hasAttribute attrs "name" then value attrs "name" else m_name file) /\
  m_indexWithCounts file'
  = (if hasAttribute attrs "indexWithCounts"
     then negb (String.eqb (value attrs "indexWithCounts") "false")
     else m_indexWithCounts file).
Proof.
  intros H Hc Hr. apply read_document_after in H. destruct H as [_ H].
  specialize (H Hc). rewrite Hr in H. destruct H as [groups ->].
  split; reflexivity.
Qed.

Lemma read_root_attributes_witness :
  m_name (mkFile "old" true [])
  = (if hasAttribute [("indexWithCounts", "no")] "name"
     then value [("indexWithCounts", "no")] "name" else m_name (mkFile "old" false [])) /\
  m_indexWithCounts (mkFile "new" true [])
  = (if hasAttribute [("name", "new")] "indexWithCounts"
     then negb (String.eqb (value [("name", "new")] "indexWithCounts") "false")
     else m_indexWithCounts (mkFile "old" true [])).
Proof.
  split.
  - apply (proj1 (read_root_attributes (mkFile "old" false [])
                    (doc [StartElement "strings" [("indexWithCounts", "no")];
                          EndElement "strings"]) []
                    true (mkFile "old" true []) [] [("indexWithCounts", "no")]
                    eq_refl eq_refl eq_refl)).
  - apply (proj2 (read_root_attributes (mkFile "old" true [])
                    (doc [StartElement "strings" [("name", "new")];
                          StartElement "group" []]) []
                    false (mkFile "new" true [])
                    ["Group does not have an ID attribute"] [("name", "new")]
                    eq_refl eq_refl eq_refl)).
Defined.

(** X8: a written document read into a document that already has groups
    is added to it: the name and the flag become those of the written
    document, which always carries both attributes, and its groups come
    after the groups that were there, none replaced and none merged. *)
Theorem read_written_appends file device target logger logger' :
  wellFormed file = true ->
  canOpen device = true ->
  exists device',
    write file device logger = (true, device', logger) /\
    read target device' logger'
    = Some (true,
            mkFile (m_name file) (m_indexWithCounts file)
              (m_groups target ++ m_groups file),
            logger').
Proof.
  intros Hw Hc. eexists. split; [apply write_written; exact Hc|].
  destruct (writtenGroups_good _ Hw) as [Hg Hm].
  rewrite read_document. unfold writtenDocument.
  change [EndElement "strings"; Characters newline; EndDocument]
    with (EndElement "strings" :: [Characters newline; EndDocument]).
  rewrite (readFile_good target NoToken [StartDocument; indent 0]
             (writtenRoot file) (map writtenGroup (m_groups file))
             (closing 0 (m_groups file)) [Characters newline; EndDocument] logger');
    try reflexivity; try assumption.
  - rewrite Hm. unfold withGroups, withRoot, writtenRoot. cbn.
    now destruct (m_indexWithCounts file).
  - apply closing_skipped.
Qed.

Lemma read_written_appends_witness :
  exists device',
    write sampleFile (mkDevice true "" []) [] = (true, device', []) /\
    read (mkFile "old" true [mkGroup 7 ["kept"]]) device' []
    = Some (true,
            mkFile (m_name sampleFile) (m_indexWithCounts sampleFile)
              (m_groups (mkFile "old" true [mkGroup 7 ["kept"]]) ++ m_groups sampleFile),
            []).
Proof.
  apply (read_written_appends sampleFile (mkDevice true "" [])
           (mkFile "old" true [mkGroup 7 ["kept"]]) [] []); reflexivity.
Defined.

(** ** The shape of what is written *)

Lemma wellNested_skip pre :
  forall open rest,
    forallb noElement pre = true ->
    wellNested open (pre ++ rest) = wellNested open rest.
Proof.
  induction pre as [|t pre IH]; intros open rest H; [reflexivity|].
  simpl in H. apply andb_prop in H. destruct H as [Ht Hp].
  destruct t; try discriminate Ht; simpl; apply IH; exact Hp.
Qed.

Lemma skipped_noElement toks :
  forallb skipped toks = true -> forallb noElement toks = true.
Proof.
  induction toks as [|t r IH]; [reflexivity|]. simpl. intros H.
  apply andb_prop in H. destruct H as [Ht Hr]. rewrite (IH Hr).
  destruct t; try discriminate Ht; reflexivity.
Qed.

Lemma textual_noElement toks :
  forallb textual toks = true -> forallb noElement toks = true.
Proof.
  induction toks as [|t r IH]; [reflexivity|]. simpl. intros H.
  apply andb_prop in H. destruct H as [Ht Hr]. rewrite (IH Hr).
  destruct t; try discriminate Ht; reflexivity.
Qed.

Lemma wellNested_strings elems :
  forall open rest,
    forallb goodString elems = true ->
    wellNested open (flat_map stringTokens elems ++ rest) = wellNested open rest.
Proof.
  induction elems as [|e elems IH]; intros open rest H; [reflexivity|].
  simpl in H. apply andb_prop in H. destruct H as [He Hs].
  unfold goodString in He. apply andb_prop in He. destruct He as [Hl Hb].
  cbn [flat_map]. rewrite <- app_assoc, stringTokens_app.
  rewrite (wellNested_skip _ _ _ (skipped_noElement _ Hl)).
  cbn [wellNested]. rewrite (wellNested_skip _ _ _ (textual_noElement _ Hb)).
  cbn [wellNested]. rewrite String.eqb_refl. cbn [andb]. apply IH. exact Hs.
Qed.

Lemma wellNested_groups groups :
  forall open rest,
    wellNested open (flat_map groupTokens (map writtenGroup groups) ++ rest)
    = wellNested open rest.
Proof.
  induction groups as [|g groups IH]; intros open rest; [reflexivity|].
  cbn [map flat_map]. rewrite <- app_assoc, groupTokens_app.
  unfold writtenGroup at 1 2 3 4. cbn [g_lead g_attrs g_strings g_trail].
  rewrite (wellNested_skip [indent 1]) by reflexivity.
  cbn [wellNested]. rewrite wellNested_strings by apply writtenStrings_good.
  rewrite (wellNested_skip _ _ _ (skipped_noElement _ (closing_skipped 1 (strings g)))).
  cbn [wellNested]. rewrite String.eqb_refl. cbn [andb]. apply IH.
Qed.

(** X9: whatever the document, [write] on a device that opens returns
    true, logs nothing, and leaves on the device a document that starts
    with the start of the document, ends with its end, and whose elements
    are nested: every end element closes the innermost open element and
    none is left open. *)
Theorem write_is_nested file device logger :
  canOpen device = true ->
  exists body,
    write file device logger
    = (true,
       mkDevice true (deviceErrorString device) (StartDocument :: body ++ [EndDocument]),
       logger) /\
    wellNested [] (StartDocument :: body ++ [EndDocument]) = true.
Proof.
  intros Hc. rewrite (write_written _ _ _ Hc).
  exists (indent 0 :: StartElement "strings" (writtenRoot file)
          :: flat_map groupTokens (map writtenGroup (m_groups file))
          ++ closing 0 (m_groups file) ++ [EndElement "strings"; Characters newline]).
  assert (E : writtenDocument file
              = StartDocument
                :: (indent 0 :: StartElement "strings" (writtenRoot file)
                    :: flat_map groupTokens (map writtenGroup (m_groups file))
                    ++ closing 0 (m_groups file)
                    ++ [EndElement "strings"; Characters newline])
                ++ [EndDocument]).
  { unfold writtenDocument, rootOpen. list_normal. reflexivity. }
  rewrite <- E. split; [reflexivity|].
  unfold writtenDocument, rootOpen, indent. list_normal. cbn [wellNested].
  rewrite wellNested_groups.
  rewrite (wellNested_skip _ _ _ (skipped_noElement _ (closing_skipped 0 (m_groups file)))).
  reflexivity.
Qed.

Lemma write_is_nested_witness :
  exists body,
    write sampleFile (mkDevice true "" [Comment]) ["before"]
    = (true,
       mkDevice true (deviceErrorString (mkDevice true "" [Comment]))
         (StartDocument :: body ++ [EndDocument]),
       ["before"]) /\
    wellNested [] (StartDocument :: body ++ [EndDocument]) = true.
Proof.
  apply (write_is_nested sampleFile (mkDevice true "" [Comment]) ["before"]).
  reflexivity.
Defined.

(** ** The loops end *)

(** X11: the loops of [readGroup] and [readFile] come to an end on every
    sequence of tokens, whatever the reader stands on: [readGroup],
    [readFile] and [read] return a result on every input.  Every round of
    a loop that is followed by another round reads a token, and the rounds
    each call is given outnumber the tokens left. *)
Theorem read_returns file xml device logger :
  (exists r, readGroup file xml logger = Some r) /\
  (exists r, readFile file xml logger = Some r) /\
  (exists r file' logger', read file device logger = Some (r, file', logger')).
Proof.
  split; [apply readGroup_total|]. split; [apply readFile_total|apply read_total].
Qed.
